(** * RBM tomography: a shallow embedding of [tomograph.py]

    The development follows the source file top to bottom:
    the basis-index codec ([idx2vis], [vis2idx]), the Hermite data encoder
    ([count_hermvals], [factorial], [encode_data]) and the [Tomograph]
    class ([forward], [predict], [loss], [fit]).

    Conventions.
    - Integer tensors are [int64]: values are [Z] and the wrap-around of
      integer tensor arithmetic is written out ([wrap64]).
    - Float tensors are computed in real arithmetic.  A float entry is a
      [scalar]: either a real number or [NaN], which stands for every
      value that is not a finite real (nan, +inf, -inf).
    - A Python exception is the [Err] outcome of a [result].
    - The [RBM] class, the Hermite series evaluator, [lgamma], the random
      number generator and the optimiser live outside [tomograph.py];
      they are the fields of the classes [Numerics] and [Backend]. *)

From Stdlib Require Import Ascii String.
From Stdlib Require Import ZArith List Bool Lia Reals Lra.
Import ListNotations.

Set Implicit Arguments.

(** ** Outcomes of Python calls *)

Inductive pyerr : Type :=
| ValueError
| IndexError
| RuntimeError.

Inductive result (A : Type) : Type :=
| Ok (a : A)
| Err (e : pyerr).

Arguments Ok {A} a.
Arguments Err {A} e.

Definition rbind {A B : Type} (r : result A) (k : A -> result B) : result B :=
  match r with
  | Ok a => k a
  | Err e => Err e
  end.

Notation "'let*' x ':=' r 'in' k" := (rbind r (fun x => k))
  (at level 10, x pattern, r at level 100, k at level 200).

(** [[f(a) for a in l]], stopping at the first exception. *)
Fixpoint mapM {A B : Type} (f : A -> result B) (l : list A) : result (list B) :=
  match l with
  | [] => Ok []
  | a :: l' =>
      let* b := f a in
      let* bs := mapM f l' in
      Ok (b :: bs)
  end.

Definition is_ok {A : Type} (r : result A) : Prop := exists a, r = Ok a.

(** ** 64-bit integer tensors *)

Module Int64.

Local Open Scope Z_scope.

Definition modulus : Z := 2 ^ 64.
Definition half : Z := 2 ^ 63.
Definition max_int : Z := half - 1.
Definition min_int : Z := - half.

(** Two's complement reduction to the [int64] range. *)
Definition wrap64 (z : Z) : Z := (z + half) mod modulus - half.

Definition in_range (z : Z) : Prop := min_int <= z <= max_int.

Definition add64 (a b : Z) : Z := wrap64 (a + b).

(** [torch.sum] of an [int64] tensor. *)
Definition sum64 (l : list Z) : Z := fold_left add64 l 0.

(** [2 ** k] for an [int64] exponent tensor entry [k >= 0]. *)
Definition pow2_64 (k : nat) : Z := wrap64 (2 ^ Z.of_nat k).

End Int64.
Import Int64.

(** ** Basis-index codec *)

(** Binary digits of a positive number, most significant first, in front
    of [acc]. *)
Fixpoint pos_digits (p : positive) (acc : string) : string :=
  match p with
  | xH => String "1" acc
  | xO q => pos_digits q (String "0" acc)
  | xI q => pos_digits q (String "1" acc)
  end%char.

(** Python's [bin]. *)
Definition bin (n : Z) : string :=
  match n with
  | Z0 => "0b0"
  | Zpos p => "0b" ++ pos_digits p ""
  | Zneg p => "-0b" ++ pos_digits p ""
  end%string.

(** The slice [s[k:]] of a string, [k >= 0]. *)
Fixpoint string_from (k : nat) (s : string) : string :=
  match k, s with
  | O, _ => s
  | S k', String _ s' => string_from k' s'
  | S _, EmptyString => EmptyString
  end.

(** Python's [int(c)] on a one-character string. *)
Definition int_of_char (c : ascii) : result Z :=
  let n := nat_of_ascii c in
  if andb (Nat.leb 48 n) (Nat.leb n 57) then Ok (Z.of_nat (n - 48)) else Err ValueError.

(** [[int(c) for c in bin(n)[2:]]] *)
Definition id_bin (n : Z) : result (list Z) :=
  mapM int_of_char (list_ascii_of_string (string_from 2 (bin n))).

(** First position of the slice [-len:] of a row of length [d]:
    [-0:] is [0:], and a start below [-d] is clamped to [0]. *)
Definition tail_start (d len : nat) : nat :=
  if Nat.eqb len 0 then 0%nat else (d - len)%nat.

(** [row[-len(src):] = src] on a tensor row.  The right-hand side must
    have the shape of the slice or be expandable to it (a single entry is
    expanded to any length, zero included). *)
Definition assign_tail (row src : list Z) : result (list Z) :=
  let d := length row in
  let start := tail_start d (length src) in
  let span := (d - start)%nat in
  if Nat.eqb (length src) span then Ok (firstn start row ++ src)
  else match src with
       | [v] => Ok (firstn start row ++ repeat v span)
       | _ => Err RuntimeError
       end.

(** [idx2vis(idx, dim)]: every row starts as [dim] zeros and receives the
    binary digits of its index in its last positions.  Entries of the
    float tensor [vis] are the integers [0] and [1]. *)
Definition idx2vis_row (dim : nat) (n : Z) : result (list Z) :=
  let* digits := id_bin n in
  assign_tail (repeat 0%Z dim) digits.

Definition idx2vis (idx : list Z) (dim : nat) : result (list (list Z)) :=
  mapM (idx2vis_row dim) idx.

(** Entrywise product of two tensors of one shape. *)
Fixpoint zip_with {A B C : Type} (f : A -> B -> C) (l : list A) (m : list B) : list C :=
  match l, m with
  | a :: l', b :: m' => f a b :: zip_with f l' m'
  | _, _ => []
  end.

(** [2 ** reversed(torch.arange(0, n))] *)
Definition pow2_weights (n : nat) : list Z := map pow2_64 (rev (seq 0 n)).

(** One row of [vis2idx]: the products are powers of two times an entry
    of [vis], exact in [float32] for binary entries, and are summed as
    [int64] ([dtype=torch.long]). *)
Definition vis2idx_row (row : list Z) : Z :=
  sum64 (zip_with Z.mul (pow2_weights (length row)) row).

Definition vis2idx (vis : list (list Z)) : list Z := map vis2idx_row vis.

(** [torch.arange(n)] for a Python integer [n]: the end point must fit
    [int64]. *)
Definition arange (n : Z) : result (list Z) :=
  if (n <=? max_int)%Z then Ok (map Z.of_nat (seq 0 (Z.to_nat n))) else Err RuntimeError.

(** Position addressed by a Python index [i] in a sequence of length
    [len]; negative indices count from the end. *)
Definition py_index (len : nat) (i : Z) : result nat :=
  let l := Z.of_nat len in
  if andb (0 <=? i)%Z (i <? l)%Z then Ok (Z.to_nat i)
  else if andb (- l <=? i)%Z (i <? 0)%Z then Ok (Z.to_nat (i + l))
  else Err IndexError.

(** [t[idx]] for an index tensor [idx]. *)
Definition gather {A : Type} (d : A) (t : list A) (idx : list Z) : result (list A) :=
  let* js := mapM (py_index (length t)) idx in
  Ok (map (fun j => nth j t d) js).

(** ** Float tensors in real arithmetic *)

Inductive scalar : Type :=
| Fin (r : R)
| NaN.

Definition lift1 (f : R -> R) (a : scalar) : scalar :=
  match a with
  | Fin x => Fin (f x)
  | NaN => NaN
  end.

Definition lift2 (f : R -> R -> R) (a b : scalar) : scalar :=
  match a, b with
  | Fin x, Fin y => Fin (f x y)
  | _, _ => NaN
  end.

Definition fadd : scalar -> scalar -> scalar := lift2 Rplus.
Definition fsub : scalar -> scalar -> scalar := lift2 Rminus.
Definition fmul : scalar -> scalar -> scalar := lift2 Rmult.
Definition fneg : scalar -> scalar := lift1 Ropp.
Definition fsqr : scalar -> scalar := lift1 Rsqr.
Definition fexp : scalar -> scalar := lift1 exp.
Definition fcos : scalar -> scalar := lift1 cos.
Definition fsin : scalar -> scalar := lift1 sin.

(** Division: a zero divisor gives an infinity or a nan. *)
Definition fdiv (a b : scalar) : scalar :=
  match a, b with
  | Fin x, Fin y => if Req_dec_T y 0 then NaN else Fin (x / y)
  | _, _ => NaN
  end.

(** Square root: nan below zero. *)
Definition fsqrt (a : scalar) : scalar :=
  match a with
  | Fin x => if Rlt_dec x 0 then NaN else Fin (sqrt x)
  | NaN => NaN
  end.

(** Logarithm: [-inf] at zero, nan below. *)
Definition flog (a : scalar) : scalar :=
  match a with
  | Fin x => if Rlt_dec 0 x then Fin (ln x) else NaN
  | NaN => NaN
  end.

(** An integer tensor entry used in float arithmetic. *)
Definition of_int (z : Z) : scalar := Fin (IZR z).

Definition finite (a : scalar) : Prop := exists r, a = Fin r.

(** [t.sum()] and [t.mean()] of a one-dimensional tensor. *)
Definition fsum (t : list scalar) : scalar := fold_left fadd t (Fin 0).

Definition fmean (t : list scalar) : scalar :=
  fdiv (fsum t) (Fin (INR (length t))).

(** A two-dimensional tensor: its second dimension and its rows, each of
    that length. *)
Record matrix : Type := Mat { ncols : nat; rows : list (list scalar) }.

Definition nrows (m : matrix) : nat := length (rows m).

Definition rectangular (m : matrix) : Prop :=
  Forall (fun r => length r = ncols m) (rows m).

Definition map_mat (f : scalar -> scalar) (m : matrix) : matrix :=
  Mat (ncols m) (map (map f) (rows m)).

(** [v.unsqueeze(0)] and [v.unsqueeze(1)] of a one-dimensional tensor;
    the first is also how a vector enters an operation with a matrix. *)
Definition row_mat (v : list scalar) : matrix := Mat (length v) [v].
Definition col_mat (v : list scalar) : matrix := Mat 1 (map (fun a => [a]) v).

(** Broadcast of two sizes along one dimension. *)
Definition bdim (a b : nat) : result nat :=
  if Nat.eqb a b then Ok a
  else if Nat.eqb a 1 then Ok b
  else if Nat.eqb b 1 then Ok a
  else Err RuntimeError.

(** Expansion of a dimension of size one to size [n]; other sizes are
    already [n]. *)
Definition expand {A : Type} (n : nat) (l : list A) : list A :=
  match l with
  | [v] => repeat v n
  | _ => l
  end.

(** Entrywise binary operation with broadcasting, on vectors and on
    matrices. *)
Definition bcast_vec (f : scalar -> scalar -> scalar) (a b : list scalar)
  : result (list scalar) :=
  let* n := bdim (length a) (length b) in
  Ok (zip_with f (expand n a) (expand n b)).

Definition bcast_mat (f : scalar -> scalar -> scalar) (a b : matrix) : result matrix :=
  let* c := bdim (ncols a) (ncols b) in
  let* r := bdim (nrows a) (nrows b) in
  Ok (Mat c (zip_with (fun ra rb => zip_with f (expand c ra) (expand c rb))
               (expand r (rows a)) (expand r (rows b)))).

(** [torch.sum(m, dim=1)] *)
Definition sum_dim1 (m : matrix) : list scalar := map fsum (rows m).

(** [m[:, idx]] for an index tensor [idx]. *)
Definition take_cols (m : matrix) (idx : list Z) : result matrix :=
  let* js := mapM (py_index (ncols m)) idx in
  Ok (Mat (length js) (map (fun r => map (fun j => nth j r NaN) js) (rows m))).

(** ** Hermite data encoder *)

(** The numerical routines taken from numpy and torch: [hermval(x, c)]
    at one point [x], and [torch.lgamma]. *)
Class Numerics : Type := {
  hermval : scalar -> list R -> scalar;
  lgamma : scalar -> scalar
}.

(** [np.zeros(m)] *)
Definition np_zeros (m : Z) : result (list R) :=
  if (m <? 0)%Z then Err ValueError else Ok (repeat 0%R (Z.to_nat m)).

Fixpoint set_nth {A : Type} (j : nat) (v : A) (l : list A) : list A :=
  match l, j with
  | [], _ => []
  | _ :: l', O => v :: l'
  | a :: l', S j' => a :: set_nth j' v l'
  end.

(** [coef[k] = v] on a numpy array. *)
Definition np_set (coef : list R) (k : Z) (v : R) : result (list R) :=
  let* j := py_index (length coef) k in
  Ok (set_nth j v coef).

Section Encoder.

Context {num : Numerics}.

(** The coefficient vector built in one iteration of [count_hermvals]:
    [coef = np.zeros(n[-1] + 1); coef[nval] = 1]. *)
Definition hermite_coef (n : list Z) (nval : Z) : result (list R) :=
  let* coef := np_zeros (add64 (last n 0%Z) 1) in
  np_set coef nval 1%R.

(** [count_hermvals(n, x)]: column [i] holds [hermval(x, coef)] for the
    coefficient vector of [n[i]]. *)
Definition count_hermvals (n : list Z) (x : list scalar) : result matrix :=
  let* coefs := mapM (hermite_coef n) n in
  Ok (Mat (length n) (map (fun xi => map (hermval xi) coefs) x)).

(** [factorial(x)] on one entry of an integer tensor. *)
Definition factorial (x : Z) : scalar :=
  fexp (lgamma (fadd (of_int x) (Fin 1))).

(** [2 ** n] on one entry of an [int64] tensor: the integer power,
    which is [0] for a negative exponent. *)
Definition pow2_int (n : Z) : Z :=
  if (n <? 0)%Z then 0%Z else pow2_64 (Z.to_nat n).

Definition encode_data (fock_indices : list Z) (x theta : list scalar)
  : result (matrix * matrix) :=
  let* hermvals := count_hermvals fock_indices x in
  let* a1 := bcast_mat fmul hermvals
               (col_mat (map (fun xi => fexp (fdiv (fneg (fsqr xi)) (Fin 2))) x)) in
  let pows := map pow2_int fock_indices in
  let norms := map fsqrt (zip_with fmul (map of_int pows) (map factorial fock_indices)) in
  let* a2 := bcast_mat fdiv a1 (row_mat norms) in
  let amplitude := map_mat (fun a => fdiv a (Fin (Rpower PI (1 / 4)))) a2 in
  let* phase := bcast_mat fmul (col_mat theta) (row_mat (map of_int fock_indices)) in
  Ok (amplitude, phase).

End Encoder.

(** ** The [Tomograph] class *)

Inductive torch_dtype : Type :=
| float32
| float64.

(** What [tomograph.py] takes from elsewhere: the [RBM] class of
    [rbm.py] ([prob] is a pure query of the parameters, [sample] draws
    from the global random generator), [torch.randint]'s source of
    randomness, the Adam optimiser with automatic differentiation, and
    the caller's callbacks. *)
Class Backend : Type := {
  RBM : Type;
  Rng : Type;
  OptState : Type;
  Callback : Type;
  rbm_new : nat -> nat -> R -> torch_dtype -> Rng -> RBM * Rng;
  rbm_prob : RBM -> list (list Z) -> list scalar;
  rbm_sample : RBM -> list (list Z) -> nat -> Rng -> list (list Z) * Rng;
  rand_raw : Rng -> Z * Rng;
  adam_new : R -> R * R -> RBM * RBM -> OptState;
  adam_step : OptState -> (RBM * RBM -> result scalar) -> RBM * RBM -> OptState * (RBM * RBM)
}.

Section Model.

Context {num : Numerics} {be : Backend}.

Record Tomograph : Type := {
  vis_size : nat;
  hid_size : nat;
  gibbs : bool;
  n_gibbs_steps : nat;
  n_samples : nat;
  amplitude_rbm : RBM;
  phase_rbm : RBM;
  dtype : torch_dtype;
  _eps : R
}.

(** The dictionary handed to the callbacks. *)
Record epoch_log : Type := {
  log_epoch : Z;
  log_n_epochs : Z;
  log_loss : scalar
}.

(** What a run shows to the outside: printed index tensors and calls
    of callbacks. *)
Inductive event : Type :=
| Printed (sampled_indices : list Z)
| Called (callback : Callback) (log : epoch_log).

(** The mutable state a method runs in: the object itself, the global
    random generator and the events so far, oldest first. *)
Record world : Type := {
  self : Tomograph;
  rng : Rng;
  out : list event
}.

(** A method body: it ends with a value or an exception and leaves a
    world behind. *)
Definition M (A : Type) : Type := world -> result A * world.

Definition ret {A : Type} (a : A) : M A := fun w => (Ok a, w).

Definition bind {A B : Type} (m : M A) (k : A -> M B) : M B :=
  fun w =>
    match m w with
    | (Ok a, w') => k a w'
    | (Err e, w') => (Err e, w')
    end.

Definition lift {A : Type} (r : result A) : M A := fun w => (r, w).

Definition read {A : Type} (field : Tomograph -> A) : M A :=
  fun w => (Ok (field (self w)), w).

Definition emit (ev : event) : M unit :=
  fun w => (Ok tt, {| self := self w; rng := rng w; out := out w ++ [ev] |}).

Definition with_rng {A : Type} (f : Rng -> A * Rng) : M A :=
  fun w =>
    let (a, g) := f (rng w) in
    (Ok a, {| self := self w; rng := g; out := out w |}).

Definition set_rbms (ab : RBM * RBM) : M unit :=
  fun w =>
    (Ok tt,
     {| self := {| vis_size := vis_size (self w);
                   hid_size := hid_size (self w);
                   gibbs := gibbs (self w);
                   n_gibbs_steps := n_gibbs_steps (self w);
                   n_samples := n_samples (self w);
                   amplitude_rbm := fst ab;
                   phase_rbm := snd ab;
                   dtype := dtype (self w);
                   _eps := _eps (self w) |};
        rng := rng w;
        out := out w |}).

Notation "x <- m ;; k" := (bind m (fun x => k))
  (at level 61, m at next level, right associativity).
Notation "m ;;; k" := (bind m (fun _ => k))
  (at level 61, right associativity).

Fixpoint for_each {A : Type} (l : list A) (body : A -> M unit) : M unit :=
  match l with
  | [] => ret tt
  | a :: l' => body a ;;; for_each l' body
  end.

(** [Tomograph(vis_size, hid_size, gibbs, n_samples, n_gibbs_steps,
    init_sigma, dtype, eps)] *)
Definition Tomograph_init (vis_size0 hid_size0 : nat) (gibbs0 : bool)
    (n_samples0 n_gibbs_steps0 : nat) (init_sigma : R) (dtype0 : torch_dtype)
    (eps : R) (g : Rng) : Tomograph * Rng :=
  let (a, g1) := rbm_new vis_size0 hid_size0 init_sigma dtype0 g in
  let (p, g2) := rbm_new vis_size0 hid_size0 init_sigma dtype0 g1 in
  ({| vis_size := vis_size0; hid_size := hid_size0; gibbs := gibbs0;
      n_gibbs_steps := n_gibbs_steps0; n_samples := n_samples0;
      amplitude_rbm := a; phase_rbm := p; dtype := dtype0; _eps := eps |}, g2).

(** [idx2vis(torch.arange(2 ** vis_size), vis_size)]: the full basis. *)
Definition enumerate (vs : nat) : result (list (list Z)) :=
  let* fock_indices := arange (2 ^ Z.of_nat vs) in
  idx2vis fock_indices vs.

(** The predicted state of two RBMs on a batch, as [forward] and
    [predict] both compute it:
    [amplitude = sqrt(amplitude_prob / amplitude_prob.sum())],
    [phase = log(phase_prob + eps) / 2]. *)
Definition predicted_state (a p : RBM) (eps : R) (vis : list (list Z))
  : list scalar * list scalar :=
  let amplitude_prob := rbm_prob a vis in
  let amplitude := map (fun q => fsqrt (fdiv q (fsum amplitude_prob))) amplitude_prob in
  let phase_prob := rbm_prob p vis in
  let phase := map (fun q => fdiv (flog (fadd q (Fin eps))) (Fin 2)) phase_prob in
  (amplitude, phase).

Definition forward (vis : list (list Z))
  : M ((list scalar * list scalar) * list (list Z)) :=
  g <- read gibbs ;;
  vis' <- (if g
           then (a <- read amplitude_rbm ;;
                 k <- read n_gibbs_steps ;;
                 with_rng (rbm_sample a vis k))
           else (vs <- read vis_size ;;
                 lift (enumerate vs))) ;;
  a <- read amplitude_rbm ;;
  p <- read phase_rbm ;;
  eps <- read _eps ;;
  ret (predicted_state a p eps vis', vis').

Definition predict : M (list scalar * list scalar) :=
  vs <- read vis_size ;;
  vis <- lift (enumerate vs) ;;
  a <- read amplitude_rbm ;;
  p <- read phase_rbm ;;
  eps <- read _eps ;;
  ret (predicted_state a p eps vis).

(** The per-row likelihood inside [loss]. *)
Definition likelihood (data_states : matrix * matrix)
    (predicted : list scalar * list scalar) : result (list scalar) :=
  let (data_amplitudes, data_phases) := data_states in
  let (predicted_amplitude, predicted_phase) := predicted in
  let* amplitudes := bcast_mat fmul data_amplitudes (row_mat predicted_amplitude) in
  let* phases := bcast_mat fsub data_phases (row_mat predicted_phase) in
  let* c := bcast_mat fmul amplitudes (map_mat fcos phases) in
  let* s := bcast_mat fmul amplitudes (map_mat fsin phases) in
  bcast_vec fadd (map fsqr (sum_dim1 c)) (map fsqr (sum_dim1 s)).

(** [-torch.mean(torch.log(likelihood + eps))] *)
Definition loss_value (eps : R) (data_states : matrix * matrix)
    (predicted : list scalar * list scalar) : result scalar :=
  let* l := likelihood data_states predicted in
  Ok (fneg (fmean (map (fun v => flog (fadd v (Fin eps))) l))).

Definition loss (data_states : matrix * matrix)
    (predicted : list scalar * list scalar) : M scalar :=
  eps <- read _eps ;;
  lift (loss_value eps data_states predicted).

(** [torch.randint(high, (n,))]: [n] draws, each brought into
    [0 <= r < high]. *)
Fixpoint draws (high : Z) (n : nat) (g : Rng) : list Z * Rng :=
  match n with
  | O => ([], g)
  | S n' =>
      let (r, g1) := rand_raw g in
      let (rs, g2) := draws high n' g1 in
      ((r mod high)%Z :: rs, g2)
  end.

Definition randint (high : Z) (n : nat) : M (list Z) :=
  if (high <=? 0)%Z then lift (Err RuntimeError) else with_rng (draws high n).

(** [range(n)] *)
Definition range (n : Z) : list Z := map Z.of_nat (seq 0 (Z.to_nat n)).

(** [opt.zero_grad(); loss.backward(); opt.step()]: one Adam step on
    the parameters of both RBMs, along the gradient of the loss as a
    function of these parameters. *)
Definition optimise (opt : OptState) (objective : RBM * RBM -> result scalar)
  : M OptState :=
  a <- read amplitude_rbm ;;
  p <- read phase_rbm ;;
  let (opt', ab) := adam_step opt objective (a, p) in
  set_rbms ab ;;;
  ret opt'.

(** The loop of [fit] over the epochs still to run, from the chain
    state [vis] and the optimiser state [opt]. *)
Fixpoint fit_loop (encoded_data : matrix * matrix) (n_epochs : Z)
    (callbacks : option (list Callback)) (epochs : list Z)
    (vis : list (list Z)) (opt : OptState) : M unit :=
  match epochs with
  | [] => ret tt
  | e :: epochs' =>
      fw <- forward vis ;;
      let (predicted, vis') := fw in
      let sampled_indices := vis2idx vis' in
      emit (Printed sampled_indices) ;;;
      data_amplitudes <- lift (take_cols (fst encoded_data) sampled_indices) ;;
      data_phases <- lift (take_cols (snd encoded_data) sampled_indices) ;;
      let data_states := (data_amplitudes, data_phases) in
      l <- loss data_states predicted ;;
      eps <- read _eps ;;
      opt' <- optimise opt
                (fun ab => loss_value eps data_states
                             (predicted_state (fst ab) (snd ab) eps vis')) ;;
      let log := {| log_epoch := e; log_n_epochs := n_epochs; log_loss := l |} in
      match callbacks with
      | None => ret tt
      | Some cbs => for_each cbs (fun callback => emit (Called callback log))
      end ;;;
      fit_loop encoded_data n_epochs callbacks epochs' vis' opt'
  end.

(** [torch.optim.Adam(self.parameters(), lr=lr, betas=(0.9, 0.99))]: the
    constructor refuses a negative learning rate. *)
Definition new_adam (lr : R) (params : RBM * RBM) : result OptState :=
  if Rlt_dec lr 0 then Err ValueError else Ok (adam_new lr (0.9, 0.99)%R params).

(** [fit(x, theta, n_epochs, lr, callbacks)].  The lookup of the device
    in its first line does not bear on any value.  Calling a callback is
    an event; callbacks are observers and return. *)
Definition fit (x theta : list scalar) (n_epochs : Z) (lr : R)
    (callbacks : option (list Callback)) : M unit :=
  vs <- read vis_size ;;
  fock_indices <- lift (arange (2 ^ Z.of_nat vs)) ;;
  encoded_data <- lift (encode_data fock_indices x theta) ;;
  ns <- read n_samples ;;
  picks <- randint (Z.of_nat (length fock_indices)) ns ;;
  picked <- lift (gather 0%Z fock_indices picks) ;;
  vis <- lift (idx2vis picked vs) ;;
  a <- read amplitude_rbm ;;
  p <- read phase_rbm ;;
  opt <- lift (new_adam lr (a, p)) ;;
  fit_loop encoded_data n_epochs callbacks (range n_epochs) vis opt.


End Model.

(** ** Specification vocabulary and reference instances *)

(** Binary digits as numbers, and the number a digit row stands for. *)
Fixpoint pos_bits (p : positive) (acc : list Z) : list Z :=
  match p with
  | xH => 1%Z :: acc
  | xO q => pos_bits q (0%Z :: acc)
  | xI q => pos_bits q (1%Z :: acc)
  end.

Fixpoint msb_value (ds : list Z) : Z :=
  match ds with
  | [] => 0
  | d :: ds' => d * 2 ^ Z.of_nat (length ds') + msb_value ds'
  end%Z.

Definition binary (b : Z) : Prop := b = 0%Z \/ b = 1%Z.

Definition index_in_range (dim : nat) (i : Z) : Prop := (0 <= i < 2 ^ Z.of_nat dim)%Z.

Definition zsum (l : list Z) : Z := fold_right Z.add 0%Z l.


(** The coefficient vector of degree [k] among [len] coefficients. *)
Definition one_hot (len k : nat) : list R := set_nth k 1%R (repeat 0%R len).

(** Entry [m[i, j]] of a matrix. *)
Definition entry (m : matrix) (i j : nat) : option scalar :=
  match nth_error (rows m) i with
  | Some r => nth_error r j
  | None => None
  end.

(** The outer product [u.unsqueeze(1) * v.unsqueeze(0)]. *)
Definition outer (f : scalar -> scalar -> scalar) (u v : list scalar) : matrix :=
  Mat (length v) (map (fun a => map (f a) v) u).

(** Sum of a list of reals. *)
Definition rsum (l : list R) : R := fold_right Rplus 0%R l.

(** A matrix without nan or infinite entries. *)
Definition finite_mat (m : matrix) : Prop := Forall (Forall finite) (rows m).

(** A strictly positive finite float. *)
Definition strictly_positive (a : scalar) : Prop := exists r, a = Fin r /\ (0 < r)%R.

(** A finite float that is not negative. *)
Definition nonneg (a : scalar) : Prop := exists r, a = Fin r /\ (0 <= r)%R.

(** A row of [dim] binary entries. *)
Definition bit_row (dim : nat) (row : list Z) : Prop :=
  length row = dim /\ Forall binary row.

(** Reference numerics for the examples: physicists' Hermite polynomials
    by their three-term recurrence, the Hermite series [sum c_k H_k(x)],
    and [lgamma] at a positive integer [k + 1] as [ln (k!)]. *)
Fixpoint hermite (k : nat) (x : R) : R :=
  match k with
  | O => 1
  | S k' =>
      match k' with
      | O => 2 * x
      | S k'' => 2 * x * hermite k' x - 2 * INR k' * hermite k'' x
      end
  end%R.

Fixpoint hermite_series (k : nat) (c : list R) (x : R) : R :=
  match c with
  | [] => 0
  | ck :: c' => ck * hermite k x + hermite_series (S k) c' x
  end%R.

#[export] Instance reference_numerics : Numerics := {
  hermval := fun a c => lift1 (hermite_series 0 c) a;
  lgamma := lift1 (fun r => ln (INR (fact (Z.to_nat (Int_part r) - 1))))
}.

(** A small backend for the examples: an RBM whose [prob] is uniform and
    whose Gibbs chain stays where it is, a counter as random generator,
    an optimiser that leaves the parameters alone, numbered callbacks. *)
#[export] Instance uniform_backend : Backend := {
  RBM := unit;
  Rng := Z;
  OptState := unit;
  Callback := nat;
  rbm_new := fun _ _ _ _ g => (tt, g);
  rbm_prob := fun _ vis => map (fun _ => Fin 1) vis;
  rbm_sample := fun _ vis _ g => (vis, g);
  rand_raw := fun g => (g, (g + 1)%Z);
  adam_new := fun _ _ _ => tt;
  adam_step := fun opt _ ab => (opt, ab)
}.

(** A model over the uniform backend: two qubits, enumeration or Gibbs
    mode. *)
Definition small_model (gibbs0 : bool) : Tomograph :=
  {| vis_size := 2; hid_size := 2; gibbs := gibbs0; n_gibbs_steps := 1;
     n_samples := 2; amplitude_rbm := tt; phase_rbm := tt; dtype := float32;
     _eps := (1 / 100000000)%R |}.

Definition small_world (gibbs0 : bool) : world :=
  {| self := small_model gibbs0; rng := 0%Z; out := [] |}.





(** The contract of the [RBM] class that [fit] relies on: [prob] gives
    one value per row of the batch, and [sample] returns rows of bits of
    the length it was given. *)
Definition prob_per_row {be : Backend} : Prop :=
  forall (r : RBM) (vis : list (list Z)), length (rbm_prob r vis) = length vis.

Definition sample_keeps_bits {be : Backend} : Prop :=
  forall (r : RBM) (vis : list (list Z)) (k : nat) (g : Rng) (d : nat),
    Forall (bit_row d) vis -> Forall (bit_row d) (fst (rbm_sample r vis k g)).


(** The model after an optimiser step: new parameters, same
    configuration. *)
Definition stepped {be : Backend} (m : Tomograph) (ab : RBM * RBM) : Tomograph :=
  {| vis_size := vis_size m; hid_size := hid_size m; gibbs := gibbs m;
     n_gibbs_steps := n_gibbs_steps m; n_samples := n_samples m;
     amplitude_rbm := fst ab; phase_rbm := snd ab; dtype := dtype m; _eps := _eps m |}.

(** A second backend for the examples: the parameter of an RBM is the
    one value its [prob] gives to every row. *)
Definition constant_backend : Backend := {|
  RBM := R;
  Rng := Z;
  OptState := unit;
  Callback := nat;
  rbm_new := fun _ _ sigma _ g => (sigma, g);
  rbm_prob := fun s vis => map (fun _ => Fin s) vis;
  rbm_sample := fun _ vis _ g => (vis, g);
  rand_raw := fun g => (g, (g + 1)%Z);
  adam_new := fun _ _ _ => tt;
  adam_step := fun opt _ ab => (opt, ab)
|}.

(** A model and a world over the constant backend (one qubit, two
    samples), with the given parameters of the amplitude and the phase
    RBM. *)
Definition constant_model (gibbs0 : bool) (a p : R) : @Tomograph constant_backend :=
  @Build_Tomograph constant_backend 1 1 gibbs0 1 2 a p float32 (1 / 100000000)%R.

Definition constant_world (gibbs0 : bool) (a p : R) : @world constant_backend :=
  @Build_world constant_backend (constant_model gibbs0 a p) 0%Z [].

(** The configuration of a model: every field but the two RBMs. *)
Definition config {be : Backend} (m : Tomograph)
  : nat * nat * bool * nat * nat * torch_dtype * R :=
  (vis_size m, hid_size m, gibbs m, n_gibbs_steps m, n_samples m, dtype m, _eps m).

(** A method body that leaves the configuration of the model alone. *)
Definition keeps_config {be : Backend} {A : Type} (m : M A) : Prop :=
  forall w : world, config (self (snd (m w))) = config (self w).

(** A method body that changes neither the model nor the events. *)
Definition quiet {be : Backend} {A : Type} (m : M A) : Prop :=
  forall w : world, self (snd (m w)) = self w /\ out (snd (m w)) = out w.

(** Events whose prints all show the indices [0, ..., 2 ^ vs - 1]. *)
Definition prints_full_basis {be : Backend} (vs : nat) (evs : list event) : Prop :=
  Forall (fun ev => match ev with
                    | Printed idx => idx = map Z.of_nat (seq 0 (2 ^ vs))
                    | Called _ _ => True
                    end) evs.

(** * Properties

    ** Results and digits *)

Local Open Scope Z_scope.

Lemma rbind_ok {A B : Type} (r : result A) (k : A -> result B) (b : B) :
  rbind r k = Ok b -> exists a, r = Ok a /\ k a = Ok b.
Proof.
  destruct r as [a|e]; simpl; intros H; [eauto | discriminate].
Qed.

(** From [let* x := r in k x = Ok b] to [r = Ok x] and [k x = Ok b]. *)
Ltac rbind_inv H x Hx :=
  apply rbind_ok in H; destruct H as [x [Hx H]].

Ltac rbind_drop H x :=
  apply rbind_ok in H; destruct H as [x [_ H]].

Lemma mapM_length {A B : Type} (f : A -> result B) (l : list A) (bs : list B) :
  mapM f l = Ok bs -> length bs = length l.
Proof.
  revert bs. induction l as [|a l IH]; simpl; intros bs H.
  - now inversion H.
  - destruct (f a) as [b|e]; simpl in H; [|discriminate].
    destruct (mapM f l) as [bs'|e]; simpl in H; [|discriminate].
    inversion H; subst. simpl. now rewrite (IH bs' eq_refl).
Qed.

Lemma mapM_ok_iff {A B : Type} (f : A -> result B) (l : list A) :
  is_ok (mapM f l) <-> Forall (fun a => is_ok (f a)) l.
Proof.
  induction l as [|a l IH]; simpl.
  - split; [constructor | intros _; eexists; reflexivity].
  - split.
    + intros [bs H]. destruct (f a) as [b|e] eqn:Ha; simpl in H; [|discriminate].
      destruct (mapM f l) as [bs'|e] eqn:Hl; simpl in H; [|discriminate].
      constructor; [eexists; eassumption | apply IH; eexists; reflexivity].
    + intros H. inversion H as [|? ? [b Hb] Hl]; subst.
      apply IH in Hl. destruct Hl as [bs Hbs]. rewrite Hb, Hbs. simpl.
      eexists; reflexivity.
Qed.

Lemma mapM_Forall2 {A B : Type} (f : A -> result B) (l : list A) (bs : list B) :
  mapM f l = Ok bs <-> Forall2 (fun a b => f a = Ok b) l bs.
Proof.
  revert bs. induction l as [|a l IH]; simpl; intros bs.
  - split; intros H; [inversion H; constructor | inversion H; reflexivity].
  - split.
    + intros H. destruct (f a) as [b|e] eqn:Ha; simpl in H; [|discriminate].
      destruct (mapM f l) as [bs'|e] eqn:Hl; simpl in H; [|discriminate].
      inversion H; subst. constructor; [assumption | now apply IH].
    + intros H. inversion H as [|? b ? bs' Hb Hl]; subst.
      apply IH in Hl. rewrite Hb, Hl. reflexivity.
Qed.

Lemma mapM_err {A B : Type} (f : A -> result B) (l : list A) (a : A) (e : pyerr) :
  In a l -> f a = Err e -> exists e', mapM f l = Err e'.
Proof.
  induction l as [|x l IH]; simpl; intros Hin Hf; [contradiction|].
  destruct Hin as [->|Hin].
  - rewrite Hf. simpl. eauto.
  - destruct (f x); simpl; [|eauto].
    destruct (IH Hin Hf) as [e' ->]. simpl. eauto.
Qed.

(** *** Digits of [bin] *)

Lemma int_of_char_0 : int_of_char "0"%char = Ok 0.
Proof. reflexivity. Qed.

Lemma int_of_char_1 : int_of_char "1"%char = Ok 1.
Proof. reflexivity. Qed.

Lemma pos_digits_bits (p : positive) (acc : string) (accz : list Z) :
  mapM int_of_char (list_ascii_of_string acc) = Ok accz ->
  mapM int_of_char (list_ascii_of_string (pos_digits p acc)) = Ok (pos_bits p accz).
Proof.
  revert acc accz. induction p as [q IH|q IH|]; intros acc accz H; simpl.
  - apply IH. simpl. rewrite H. reflexivity.
  - apply IH. simpl. rewrite H. reflexivity.
  - rewrite H. reflexivity.
Qed.

Lemma id_bin_pos (p : positive) : id_bin (Zpos p) = Ok (pos_bits p []).
Proof.
  unfold id_bin, bin. simpl. now apply pos_digits_bits.
Qed.

Lemma id_bin_zero : id_bin 0 = Ok [0].
Proof. reflexivity. Qed.

Lemma id_bin_neg (p : positive) : id_bin (Zneg p) = Err ValueError.
Proof. reflexivity. Qed.

Lemma pos_bits_length (p : positive) (acc : list Z) :
  length (pos_bits p acc) = (Pos.size_nat p + length acc)%nat.
Proof.
  revert acc. induction p as [q IH|q IH|]; intros acc; simpl pos_bits; simpl Pos.size_nat;
    rewrite ?IH; simpl length; lia.
Qed.

Lemma pos_bits_binary (p : positive) (acc : list Z) :
  Forall binary acc -> Forall binary (pos_bits p acc).
Proof.
  revert acc. induction p as [q IH|q IH|]; intros acc H; simpl.
  - apply IH. constructor; [now right | assumption].
  - apply IH. constructor; [now left | assumption].
  - constructor; [now right | assumption].
Qed.

Lemma pos_bits_value (p : positive) (acc : list Z) :
  msb_value (pos_bits p acc) = Zpos p * 2 ^ Z.of_nat (length acc) + msb_value acc.
Proof.
  revert acc. induction p as [q IH|q IH|]; intros acc; simpl pos_bits.
  - rewrite IH. cbn [msb_value length].
    rewrite Nat2Z.inj_succ, Z.pow_succ_r by lia.
    change (Z.pos q~1) with (2 * Z.pos q + 1). ring.
  - rewrite IH. cbn [msb_value length].
    rewrite Nat2Z.inj_succ, Z.pow_succ_r by lia.
    change (Z.pos q~0) with (2 * Z.pos q). ring.
  - cbn [msb_value]. ring.
Qed.

Lemma size_nat_bounds (p : positive) :
  2 ^ Z.of_nat (Pos.size_nat p) <= 2 * Zpos p < 2 * 2 ^ Z.of_nat (Pos.size_nat p).
Proof.
  induction p as [q IH|q IH|]; simpl Pos.size_nat;
    rewrite Nat2Z.inj_succ, Z.pow_succ_r by lia; simpl Z.of_nat; lia.
Qed.

Lemma size_nat_le_iff (p : positive) (dim : nat) :
  (Pos.size_nat p <= dim)%nat <-> Zpos p < 2 ^ Z.of_nat dim.
Proof.
  pose proof (size_nat_bounds p) as Hb. split; intros H.
  - assert (2 ^ Z.of_nat (Pos.size_nat p) <= 2 ^ Z.of_nat dim)
      by (apply Z.pow_le_mono_r; lia). lia.
  - destruct (Nat.le_gt_cases (Pos.size_nat p) dim) as [|Hgt]; [assumption|].
    assert (2 * 2 ^ Z.of_nat dim <= 2 ^ Z.of_nat (Pos.size_nat p)).
    { rewrite <- Z.pow_succ_r by lia. apply Z.pow_le_mono_r; lia. }
    lia.
Qed.

Lemma size_nat_pos (p : positive) : (1 <= Pos.size_nat p)%nat.
Proof. destruct p; simpl; lia. Qed.

(** *** The row assignment *)

Lemma firstn_repeat_le {A : Type} (a : A) (k n : nat) :
  (k <= n)%nat -> firstn k (repeat a n) = repeat a k.
Proof.
  revert n. induction k as [|k IH]; intros n H; [reflexivity|].
  destruct n as [|n]; [lia|]. simpl. f_equal. apply IH. lia.
Qed.

Lemma assign_tail_fits (dim : nat) (ds : list Z) :
  (1 <= length ds <= dim)%nat ->
  assign_tail (repeat 0 dim) ds = Ok (repeat 0 (dim - length ds) ++ ds).
Proof.
  intros H. unfold assign_tail, tail_start. rewrite repeat_length.
  destruct (Nat.eqb_spec (length ds) 0) as [E|_]; [lia|].
  replace (dim - (dim - length ds))%nat with (length ds) by lia.
  rewrite Nat.eqb_refl. f_equal. f_equal.
  apply firstn_repeat_le. lia.
Qed.

Lemma assign_tail_too_long (dim : nat) (ds : list Z) :
  (dim < length ds)%nat -> (2 <= length ds)%nat ->
  assign_tail (repeat 0 dim) ds = Err RuntimeError.
Proof.
  intros H H2. unfold assign_tail, tail_start. rewrite repeat_length.
  destruct (Nat.eqb_spec (length ds) 0) as [E|_]; [lia|].
  replace (dim - length ds)%nat with 0%nat by lia. rewrite Nat.sub_0_r.
  destruct (Nat.eqb_spec (length ds) dim) as [E|_]; [lia|].
  destruct ds as [|a [|b ds]]; simpl in *; try lia. reflexivity.
Qed.

Lemma assign_tail_single_empty (v : Z) : assign_tail [] [v] = Ok [].
Proof. reflexivity. Qed.

Local Close Scope Z_scope.

(** ** The codec: [vis2idx] after [idx2vis] *)

Local Open Scope Z_scope.

(** *** [int64] sums *)

Lemma wrap64_small (z : Z) : min_int <= z <= max_int -> wrap64 z = z.
Proof.
  unfold wrap64, min_int, max_int, half, modulus. intros H.
  rewrite Z.mod_small; lia.
Qed.

Lemma wrap64_add_l (a b : Z) : wrap64 (wrap64 a + b) = wrap64 (a + b).
Proof.
  unfold wrap64. f_equal.
  replace ((a + half) mod modulus - half + b + half) with ((a + half) mod modulus + b) by ring.
  rewrite Zplus_mod_idemp_l. f_equal. ring.
Qed.

Lemma fold_add64 (l : list Z) (a : Z) :
  fold_left add64 l (wrap64 a) = wrap64 (a + zsum l).
Proof.
  revert a. induction l as [|x l IH]; intros a; simpl.
  - now rewrite Z.add_0_r.
  - unfold add64 at 2. rewrite wrap64_add_l, IH. f_equal. ring.
Qed.

Lemma sum64_zsum (l : list Z) : sum64 l = wrap64 (zsum l).
Proof.
  unfold sum64. change 0 with (wrap64 0) at 1. now rewrite fold_add64.
Qed.

Lemma pow2_64_small (k : nat) : (k < 63)%nat -> pow2_64 k = 2 ^ Z.of_nat k.
Proof.
  intros H. unfold pow2_64. apply wrap64_small.
  unfold min_int, max_int, half.
  assert (2 ^ Z.of_nat k < 2 ^ 63) by (apply Z.pow_lt_mono_r; lia).
  assert (0 < 2 ^ Z.of_nat k) by (apply Z.pow_pos_nonneg; lia). lia.
Qed.

Lemma pow2_weights_S (n : nat) : pow2_weights (S n) = pow2_64 n :: pow2_weights n.
Proof.
  unfold pow2_weights. rewrite seq_S, rev_app_distr. reflexivity.
Qed.

(** *** Rows of binary digits *)

Lemma msb_value_nonneg (row : list Z) : Forall binary row -> 0 <= msb_value row.
Proof.
  induction 1 as [|d ds Hd _ IH]; cbn [msb_value]; [lia|].
  assert (0 < 2 ^ Z.of_nat (length ds)) by (apply Z.pow_pos_nonneg; lia).
  destruct Hd; subst; lia.
Qed.

Lemma msb_value_bound (row : list Z) :
  Forall binary row -> msb_value row < 2 ^ Z.of_nat (length row).
Proof.
  induction 1 as [|d ds Hd _ IH]; cbn [msb_value length]; [simpl; lia|].
  rewrite Nat2Z.inj_succ, Z.pow_succ_r by lia.
  destruct Hd; subst; lia.
Qed.

Lemma msb_value_zeros (k : nat) (ds : list Z) :
  msb_value (repeat 0 k ++ ds) = msb_value ds.
Proof.
  induction k as [|k IH]; [reflexivity|].
  cbn [repeat app msb_value]. rewrite IH. ring.
Qed.

Lemma weighted_sum_value (row : list Z) :
  Forall binary row -> msb_value row <= max_int ->
  zsum (zip_with Z.mul (pow2_weights (length row)) row) = msb_value row.
Proof.
  induction 1 as [|d ds Hd Hds IH]; intros Hmax; [reflexivity|].
  cbn [length msb_value] in *. rewrite pow2_weights_S. cbn [zip_with zsum fold_right].
  fold (zsum (zip_with Z.mul (pow2_weights (length ds)) ds)).
  pose proof (msb_value_nonneg Hds) as Hnn.
  assert (Hp : 0 < 2 ^ Z.of_nat (length ds)) by (apply Z.pow_pos_nonneg; lia).
  destruct Hd as [->| ->].
  - rewrite IH by lia. ring.
  - rewrite IH by lia. rewrite pow2_64_small; [ring|].
    destruct (Nat.lt_ge_cases (length ds) 63) as [|Hge]; [assumption|].
    assert (2 ^ 63 <= 2 ^ Z.of_nat (length ds)) by (apply Z.pow_le_mono_r; lia).
    unfold max_int, half in Hmax. lia.
Qed.

Lemma vis2idx_row_value (row : list Z) :
  Forall binary row -> msb_value row <= max_int -> vis2idx_row row = msb_value row.
Proof.
  intros Hb Hmax. unfold vis2idx_row.
  rewrite sum64_zsum, weighted_sum_value by assumption.
  apply wrap64_small. pose proof (msb_value_nonneg Hb).
  unfold min_int, half. lia.
Qed.

(** *** One row of [idx2vis] *)

Lemma idx2vis_row_in_range (dim : nat) (i : Z) :
  index_in_range dim i ->
  exists row, idx2vis_row dim i = Ok row /\ length row = dim /\
              Forall binary row /\ msb_value row = i.
Proof.
  unfold index_in_range, idx2vis_row. intros [Hlo Hhi].
  destruct i as [|p|p]; [| |lia].
  - rewrite id_bin_zero. cbn [rbind]. destruct dim as [|dim].
    + exists []. repeat split. constructor.
    + rewrite assign_tail_fits by (simpl; lia).
      exists (repeat 0 (S dim - 1) ++ [0]). split; [reflexivity|]. split; [|split].
      * rewrite length_app, repeat_length. simpl. lia.
      * apply Forall_app. split; [apply Forall_forall; intros x Hx;
          apply repeat_spec in Hx; now left | repeat constructor; now left].
      * rewrite msb_value_zeros. reflexivity.
  - rewrite id_bin_pos. cbn [rbind].
    apply size_nat_le_iff in Hhi. pose proof (size_nat_pos p).
    rewrite assign_tail_fits by (rewrite pos_bits_length; simpl; lia).
    eexists. split; [reflexivity|]. split; [|split].
    + rewrite length_app, repeat_length, pos_bits_length. simpl. lia.
    + apply Forall_app. split; [apply Forall_forall; intros x Hx;
        apply repeat_spec in Hx; now left | apply pos_bits_binary; constructor].
    + rewrite msb_value_zeros, pos_bits_value. simpl. lia.
Qed.

Lemma idx2vis_row_negative (dim : nat) (i : Z) :
  i < 0 -> idx2vis_row dim i = Err ValueError.
Proof.
  intros H. destruct i as [|p|p]; try lia. reflexivity.
Qed.

Lemma idx2vis_row_too_large (dim : nat) (i : Z) :
  (1 <= dim)%nat -> 2 ^ Z.of_nat dim <= i -> idx2vis_row dim i = Err RuntimeError.
Proof.
  intros Hd H. unfold idx2vis_row.
  assert (0 < 2 ^ Z.of_nat dim) by (apply Z.pow_pos_nonneg; lia).
  destruct i as [|p|p]; try lia.
  rewrite id_bin_pos. cbn [rbind].
  assert (Hs : (dim < Pos.size_nat p)%nat).
  { destruct (Nat.lt_ge_cases dim (Pos.size_nat p)) as [|Hle]; [assumption|].
    apply size_nat_le_iff in Hle. lia. }
  apply assign_tail_too_long; rewrite pos_bits_length; simpl; lia.
Qed.

Lemma idx2vis_in_range (dim : nat) (idx : list Z) :
  Forall (index_in_range dim) idx ->
  exists vis, idx2vis idx dim = Ok vis /\
              Forall2 (fun i row => length row = dim /\ Forall binary row /\ msb_value row = i)
                idx vis.
Proof.
  unfold idx2vis. induction 1 as [|i idx Hi _ IH]; simpl.
  - exists []. split; [reflexivity | constructor].
  - destruct (idx2vis_row_in_range Hi) as [row [Hrow Hspec]].
    destruct IH as [vis [Hvis Hall]]. rewrite Hrow, Hvis. simpl.
    exists (row :: vis). split; [reflexivity | now constructor].
Qed.

Lemma vis2idx_idx2vis (dim : nat) (idx : list Z) :
  Forall (index_in_range dim) idx -> Forall (fun i => i <= max_int) idx ->
  exists vis, idx2vis idx dim = Ok vis /\ vis2idx vis = idx /\
              length vis = length idx /\
              Forall (fun row => length row = dim /\ Forall binary row) vis.
Proof.
  intros Hin Hmax. destruct (idx2vis_in_range Hin) as [vis [Hvis Hall]].
  exists vis. split; [assumption|]. clear Hvis Hin.
  induction Hall as [|i row idx vis [Hlen [Hbin Hval]] _ IH]; simpl.
  - repeat split. constructor.
  - inversion Hmax; subst. destruct IH as [IH1 [IH2 IH3]]; [assumption|].
    rewrite IH1, vis2idx_row_value by (try assumption; lia).
    repeat split; try lia. constructor; [now split | assumption].
Qed.

(** C1. For every dimension [dim] and every index [i] with
    [0 <= i < 2^dim], [i] being an entry of an [int64] index tensor (which
    [i < 2^dim] already makes it when [dim <= 63]), converting [i] to its
    bit vector and back is the identity:
    [vis2idx(idx2vis([i], dim)) == i]. *)
Theorem vis2idx_idx2vis_identity (dim : nat) (i : Z) :
  0 <= i < 2 ^ Z.of_nat dim -> in_range i ->
  exists vis, idx2vis [i] dim = Ok vis /\ vis2idx vis = [i].
Proof.
  intros Hr [_ Hm].
  destruct (@vis2idx_idx2vis dim [i]) as [vis [H1 [H2 _]]].
  - constructor; [exact Hr | constructor].
  - constructor; [exact Hm | constructor].
  - exists vis. now split.
Qed.

Lemma vis2idx_idx2vis_identity_witness :
  exists vis, idx2vis [5] 3 = Ok vis /\ vis2idx vis = [5].
Proof.
  apply (@vis2idx_idx2vis_identity 3 5); [simpl; lia | vm_compute; split; congruence].
Defined.

(** C9, as the code has it.  For every dimension [dim >= 1], [idx2vis]
    returns exactly when every index satisfies [0 <= i < 2^dim]; what it
    returns is one row of length [dim] per index; and an index with
    [i >= 2^dim] makes the row assignment fail with a [RuntimeError], so
    that [idx2vis] raises. *)
Theorem idx2vis_returns_iff_in_range (dim : nat) (idx : list Z) :
  (1 <= dim)%nat ->
  (is_ok (idx2vis idx dim) <-> Forall (fun i => 0 <= i < 2 ^ Z.of_nat dim) idx) /\
  (forall vis, idx2vis idx dim = Ok vis ->
     length vis = length idx /\ Forall (fun row => length row = dim) vis) /\
  (forall i, In i idx -> 2 ^ Z.of_nat dim <= i ->
     idx2vis_row dim i = Err RuntimeError /\ exists e, idx2vis idx dim = Err e).
Proof.
  intros Hd. split; [|split].
  - split.
    + intros Hok. apply mapM_ok_iff in Hok. apply Forall_forall. intros i Hi.
      rewrite Forall_forall in Hok. specialize (Hok i Hi). destruct Hok as [row Hrow].
      destruct (Z.lt_ge_cases i 0) as [Hneg|Hnn].
      * rewrite idx2vis_row_negative in Hrow by assumption. discriminate.
      * destruct (Z.lt_ge_cases i (2 ^ Z.of_nat dim)) as [|Hbig]; [lia|].
        rewrite idx2vis_row_too_large in Hrow by assumption. discriminate.
    + intros Hall. destruct (@idx2vis_in_range dim idx Hall) as [vis [Hvis _]].
      exists vis. exact Hvis.
  - intros vis Hvis. split; [eapply mapM_length; exact Hvis|].
    assert (Hall : Forall (index_in_range dim) idx).
    { apply Forall_forall. intros i Hi.
      assert (Hok : is_ok (idx2vis idx dim)) by (exists vis; exact Hvis).
      apply mapM_ok_iff in Hok. rewrite Forall_forall in Hok.
      destruct (Hok i Hi) as [row Hrow].
      destruct (Z.lt_ge_cases i 0) as [Hneg|Hnn].
      - rewrite idx2vis_row_negative in Hrow by assumption. discriminate.
      - destruct (Z.lt_ge_cases i (2 ^ Z.of_nat dim)) as [|Hbig]; [split; lia|].
        rewrite idx2vis_row_too_large in Hrow by assumption. discriminate. }
    destruct (idx2vis_in_range Hall) as [vis' [Hvis' Hrows]].
    rewrite Hvis in Hvis'. inversion Hvis'; subst vis'.
    clear - Hrows. induction Hrows as [|i row idx vis [Hl _] _ IH]; constructor; assumption.
  - intros i Hi Hbig. pose proof (idx2vis_row_too_large Hd Hbig) as Hrow.
    split; [exact Hrow|]. eapply mapM_err; eassumption.
Qed.

Lemma idx2vis_returns_iff_in_range_witness :
  is_ok (idx2vis [0; 3] 2) /\ idx2vis_row 2 4 = Err RuntimeError.
Proof.
  destruct (@idx2vis_returns_iff_in_range 2 [0; 3; 4]) as [_ [_ H]]; [lia|].
  split.
  - apply (proj1 (@idx2vis_returns_iff_in_range 2 [0; 3] (le_S _ _ (le_n 1)))).
    repeat constructor; vm_compute; congruence.
  - apply H; [simpl; tauto | vm_compute; congruence].
Defined.

(** C9 as stated fails at dimension zero: index [1] is not below [2^0],
    yet its single digit is expanded onto the empty row and [idx2vis]
    returns a batch of empty vectors. *)
Lemma idx2vis_dim0_index1_returns :
  idx2vis [1] 0 = Ok [[]] /\ 2 ^ Z.of_nat 0 <= 1.
Proof.
  split; [reflexivity | vm_compute; congruence].
Qed.

Local Close Scope Z_scope.

(** ** Broadcasting and coefficient vectors *)

Local Open Scope Z_scope.

(** *** Broadcasting *)

Lemma expand_same {A : Type} (n : nat) (l : list A) : length l = n -> expand n l = l.
Proof.
  intros H. destruct l as [|a [|b l]]; try reflexivity. simpl in H. subst. reflexivity.
Qed.

Lemma expand_single {A : Type} (n : nat) (a : A) : expand n [a] = repeat a n.
Proof. reflexivity. Qed.

Lemma expand_map {A B : Type} (f : A -> B) (n : nat) (l : list A) :
  expand n (map f l) = map f (expand n l).
Proof.
  destruct l as [|a [|b l]]; try reflexivity. simpl. now rewrite map_repeat.
Qed.

Lemma zip_with_repeat_l {A B C : Type} (f : A -> B -> C) (a : A) (l : list B) :
  zip_with f (repeat a (length l)) l = map (f a) l.
Proof.
  induction l as [|b l IH]; simpl; [reflexivity | now rewrite IH].
Qed.

Lemma zip_with_repeat_r {A B C : Type} (f : A -> B -> C) (l : list A) (b : B) :
  zip_with f l (repeat b (length l)) = map (fun a => f a b) l.
Proof.
  induction l as [|a l IH]; simpl; [reflexivity | now rewrite IH].
Qed.

Lemma zip_with_length {A B C : Type} (f : A -> B -> C) (l : list A) (m : list B) :
  length l = length m -> length (zip_with f l m) = length l.
Proof.
  revert m. induction l as [|a l IH]; intros [|b m] H; simpl in *; try lia.
  now rewrite IH by lia.
Qed.

Lemma zip_with_map {A A' B B' C : Type} (f : A' -> B' -> C) (g : A -> A') (h : B -> B')
    (l : list A) (m : list B) :
  zip_with f (map g l) (map h m) = zip_with (fun a b => f (g a) (h b)) l m.
Proof.
  revert m. induction l as [|a l IH]; intros [|b m]; simpl; try reflexivity.
  now rewrite IH.
Qed.

Lemma zip_with_ext {A B C : Type} (f g : A -> B -> C) (l : list A) (m : list B) :
  (forall a b, f a b = g a b) -> zip_with f l m = zip_with g l m.
Proof.
  intros H. revert m. induction l as [|a l IH]; intros [|b m]; simpl; try reflexivity.
  now rewrite H, IH.
Qed.

Lemma bdim_one_r (n : nat) : bdim n 1 = Ok n.
Proof.
  unfold bdim. destruct (Nat.eqb_spec n 1) as [->|_]; reflexivity.
Qed.

Lemma bdim_one_l (n : nat) : bdim 1 n = Ok n.
Proof.
  unfold bdim. destruct (Nat.eqb_spec 1 n) as [<-|_]; reflexivity.
Qed.

Lemma bdim_same (n : nat) : bdim n n = Ok n.
Proof. unfold bdim. now rewrite Nat.eqb_refl. Qed.

Lemma bcast_col_row (f : scalar -> scalar -> scalar) (u v : list scalar) :
  bcast_mat f (col_mat u) (row_mat v) = Ok (outer f u v).
Proof.
  unfold bcast_mat, col_mat, row_mat, outer, nrows. cbn [ncols rows length].
  rewrite bdim_one_l, length_map, bdim_one_r. cbn [rbind]. do 2 f_equal.
  rewrite expand_single, (expand_same (map _ u)) by apply length_map.
  rewrite <- (length_map (fun a => [a]) u), zip_with_repeat_r, map_map.
  apply map_ext. intros a.
  rewrite expand_single, (expand_same v) by reflexivity.
  apply zip_with_repeat_l.
Qed.

(** *** Coefficient vectors *)

Lemma py_index_in_bounds (len : nat) (i : Z) :
  0 <= i < Z.of_nat len -> py_index len i = Ok (Z.to_nat i).
Proof.
  intros H. unfold py_index.
  destruct (Z.leb_spec 0 i); destruct (Z.ltb_spec i (Z.of_nat len)); try lia. reflexivity.
Qed.

Lemma py_index_above (len : nat) (i : Z) :
  Z.of_nat len <= i -> py_index len i = Err IndexError.
Proof.
  intros H. unfold py_index.
  destruct (Z.leb_spec 0 i); destruct (Z.ltb_spec i (Z.of_nat len));
    destruct (Z.leb_spec (- Z.of_nat len) i); destruct (Z.ltb_spec i 0); try lia; reflexivity.
Qed.

Lemma py_index_error (len : nat) (i : Z) (e : pyerr) :
  py_index len i = Err e -> e = IndexError.
Proof.
  unfold py_index.
  destruct (andb _ _); [discriminate|]. destruct (andb _ _); [discriminate|].
  congruence.
Qed.

Section EncoderFacts.

Context {num : Numerics}.

Lemma hermite_coef_in_bounds (n : list Z) (nval : Z) :
  0 <= nval <= last n 0 -> last n 0 < max_int ->
  hermite_coef n nval = Ok (one_hot (Z.to_nat (last n 0 + 1)) (Z.to_nat nval)).
Proof.
  intros H Hm. unfold hermite_coef, add64.
  rewrite wrap64_small by (unfold min_int, max_int, half in *; lia).
  unfold np_zeros. destruct (Z.ltb_spec (last n 0 + 1) 0); [lia|]. cbn [rbind].
  unfold np_set. rewrite py_index_in_bounds by (rewrite repeat_length; lia).
  reflexivity.
Qed.

Lemma hermite_coef_above_last (n : list Z) (nval : Z) :
  0 <= last n 0 < max_int -> last n 0 < nval ->
  hermite_coef n nval = Err IndexError.
Proof.
  intros H Hm. unfold hermite_coef, add64.
  rewrite wrap64_small by (unfold min_int, max_int, half in *; lia).
  unfold np_zeros. destruct (Z.ltb_spec (last n 0 + 1) 0); [lia|]. cbn [rbind].
  unfold np_set. rewrite py_index_above by (rewrite repeat_length; lia).
  reflexivity.
Qed.

Lemma hermite_coef_error (n : list Z) (nval : Z) (e : pyerr) :
  0 <= last n 0 < max_int -> hermite_coef n nval = Err e -> e = IndexError.
Proof.
  intros H. unfold hermite_coef, add64.
  rewrite wrap64_small by (unfold min_int, max_int, half in *; lia).
  unfold np_zeros. destruct (Z.ltb_spec (last n 0 + 1) 0); [lia|]. cbn [rbind].
  unfold np_set. destruct (py_index _ nval) as [j|e'] eqn:E; cbn [rbind]; [discriminate|].
  intros He. inversion He; subst. eapply py_index_error; eassumption.
Qed.

Lemma mapM_err_uniform {A B : Type} (f : A -> result B) (l : list A) (e : pyerr) :
  (forall a e', In a l -> f a = Err e' -> e' = e) ->
  (exists a, In a l /\ exists e', f a = Err e') ->
  mapM f l = Err e.
Proof.
  induction l as [|x l IH]; intros Hu [a [Hin [e' Ha]]]; [destruct Hin|].
  simpl. destruct (f x) as [b|ex] eqn:Ex; cbn [rbind].
  - destruct Hin as [->|Hin]; [congruence|].
    rewrite IH; [reflexivity | | exists a; eauto].
    intros a0 e0 H0. apply Hu. now right.
  - f_equal. apply (Hu x); [now left | assumption].
Qed.

Lemma hermite_coefs_in_bounds (n l : list Z) :
  Forall (fun nval => 0 <= nval <= last n 0) l -> last n 0 < max_int ->
  mapM (hermite_coef n) l =
    Ok (map (fun nval => one_hot (Z.to_nat (last n 0 + 1)) (Z.to_nat nval)) l).
Proof.
  intros Hall Hm. induction Hall as [|a l Ha _ IH]; [reflexivity|].
  cbn [mapM map]. rewrite hermite_coef_in_bounds, IH by assumption. reflexivity.
Qed.

Lemma count_hermvals_in_bounds (n : list Z) (x : list scalar) :
  Forall (fun nval => 0 <= nval <= last n 0) n -> last n 0 < max_int ->
  count_hermvals n x =
    Ok (Mat (length n)
          (map (fun xi => map (fun nval =>
                  hermval xi (one_hot (Z.to_nat (last n 0 + 1)) (Z.to_nat nval))) n) x)).
Proof.
  intros Hall Hm. unfold count_hermvals.
  rewrite hermite_coefs_in_bounds by assumption. cbn [rbind]. do 2 f_equal.
  apply map_ext. intros xi. now rewrite map_map.
Qed.

Lemma count_hermvals_shape (n : list Z) (x : list scalar) (h : matrix) :
  count_hermvals n x = Ok h ->
  ncols h = length n /\ nrows h = length x /\ rectangular h.
Proof.
  unfold count_hermvals. intros H. rbind_inv H coefs Hc.
  inversion H; subst. unfold nrows, rectangular. cbn [ncols rows].
  rewrite length_map. repeat split.
  apply Forall_forall. intros r Hr. apply in_map_iff in Hr. destruct Hr as [xi [<- _]].
  rewrite length_map. eapply mapM_length; eassumption.
Qed.

End EncoderFacts.

Local Close Scope Z_scope.

(** ** The encoder *)

Local Open Scope Z_scope.

Section EncoderClaims.

Context {num : Numerics}.

(** C4 on the code.  [count_hermvals] sizes every coefficient vector by
    the last requested degree, [n[-1] + 1]: as soon as some requested
    degree is larger than the last one, [coef[nval]] is out of bounds and
    the call ends with an [IndexError], whatever [x] is. *)
Theorem count_hermvals_needs_last_maximal (n : list Z) (x : list scalar) (nval : Z) :
  0 <= last n 0 < max_int -> In nval n -> last n 0 < nval ->
  count_hermvals n x = Err IndexError.
Proof.
  intros Hl Hin Hgt. unfold count_hermvals.
  rewrite (@mapM_err_uniform _ _ (hermite_coef n) n IndexError); [reflexivity | |].
  - intros a e _ He. eapply hermite_coef_error; eassumption.
  - exists nval. split; [assumption|]. exists IndexError.
    now apply hermite_coef_above_last.
Qed.

Lemma entry_outer (f : scalar -> scalar -> scalar) (u v : list scalar)
    (i j : nat) (a b : scalar) :
  nth_error u i = Some a -> nth_error v j = Some b ->
  entry (outer f u v) i j = Some (f a b).
Proof.
  intros Hu Hv. unfold entry, outer. cbn [rows].
  rewrite nth_error_map, Hu. cbn [option_map].
  rewrite nth_error_map, Hv. reflexivity.
Qed.

Lemma bcast_mat_ok (f : scalar -> scalar -> scalar) (a b : matrix) :
  is_ok (bdim (ncols a) (ncols b)) -> is_ok (bdim (nrows a) (nrows b)) ->
  is_ok (bcast_mat f a b).
Proof.
  intros [c Hc] [r Hr]. unfold bcast_mat. rewrite Hc, Hr. cbn [rbind].
  eexists; reflexivity.
Qed.

Lemma encode_data_returns (fock_indices : list Z) (x theta : list scalar) :
  Forall (fun n => 0 <= n <= last fock_indices 0) fock_indices ->
  last fock_indices 0 < max_int ->
  is_ok (encode_data fock_indices x theta).
Proof.
  intros Hall Hm. unfold encode_data.
  rewrite count_hermvals_in_bounds by assumption. cbn [rbind].
  unfold bcast_mat at 1. unfold nrows. cbn [ncols rows col_mat].
  rewrite bdim_one_r. cbn [rbind]. rewrite !length_map, bdim_same. cbn [rbind].
  unfold bcast_mat at 1. unfold nrows. cbn [ncols rows row_mat length].
  rewrite length_map, zip_with_length by now rewrite !length_map.
  rewrite !length_map, bdim_same. cbn [rbind].
  rewrite bdim_one_r. cbn [rbind].
  rewrite bcast_col_row. cbn [rbind]. eexists; reflexivity.
Qed.

(** C7.  Whenever [encode_data] returns, and it does so for every list
    of degrees whose last element is the largest, the phase matrix is
    the outer product of [theta] and the degrees: one row per [theta_i],
    one column per requested degree [n], with entry [theta_i * n] and no
    reduction modulo [2 * PI]. *)
Theorem encode_data_phase (fock_indices : list Z) (x theta : list scalar) :
  (Forall (fun n => 0 <= n <= last fock_indices 0) fock_indices ->
   last fock_indices 0 < max_int ->
   is_ok (encode_data fock_indices x theta)) /\
  (forall amplitude phase,
     encode_data fock_indices x theta = Ok (amplitude, phase) ->
     nrows phase = length theta /\ ncols phase = length fock_indices /\
     (forall i j t n,
        nth_error theta i = Some t -> nth_error fock_indices j = Some n ->
        entry phase i j = Some (fmul t (of_int n))) /\
     (forall i j t n,
        nth_error theta i = Some (Fin t) -> nth_error fock_indices j = Some n ->
        entry phase i j = Some (Fin (t * IZR n)))).
Proof.
  split; [apply encode_data_returns|].
  intros amplitude phase H. unfold encode_data in H.
  rbind_drop H hermvals.
  rbind_drop H a1.
  rbind_drop H a2.
  rewrite bcast_col_row in H. cbn [rbind] in H. inversion H; subst. clear H.
  assert (He : forall i j t n,
             nth_error theta i = Some t -> nth_error fock_indices j = Some n ->
             entry (outer fmul theta (map of_int fock_indices)) i j = Some (fmul t (of_int n))).
  { intros i j t n Ht Hn. apply entry_outer; [assumption|].
    rewrite nth_error_map, Hn. reflexivity. }
  unfold nrows, outer at 1 2. cbn [rows ncols]. rewrite !length_map.
  repeat split; [exact He|].
  intros i j t n Ht Hn. rewrite (He i j (Fin t) n Ht Hn). reflexivity.
Qed.

End EncoderClaims.

(** With the reference numerics, [count_hermvals] on degrees none of
    which exceeds the last one gives the Hermite polynomial of every
    requested degree at every point. *)
Lemma hermite_series_zeros (k len : nat) (x : R) :
  hermite_series k (repeat 0%R len) x = 0%R.
Proof.
  revert k. induction len as [|len IH]; intros k; [reflexivity|].
  cbn [repeat hermite_series]. rewrite IH. ring.
Qed.

Lemma hermite_series_one_hot (k len j : nat) (x : R) :
  (j < len)%nat -> hermite_series k (one_hot len j) x = hermite (k + j) x.
Proof.
  unfold one_hot. revert k j. induction len as [|len IH]; intros k j Hj; [lia|].
  destruct j as [|j]; cbn [repeat set_nth hermite_series].
  - rewrite hermite_series_zeros, Nat.add_0_r. ring.
  - rewrite IH by lia. rewrite Nat.add_succ_r. cbn [Nat.add]. ring.
Qed.

Lemma count_hermvals_reference (n : list Z) (xs : list R) :
  Forall (fun nval => 0 <= nval <= last n 0) n -> last n 0 < max_int ->
  @count_hermvals reference_numerics n (map Fin xs) =
    Ok (Mat (length n)
          (map (fun x => map (fun nval => Fin (hermite (Z.to_nat nval) x)) n) xs)).
Proof.
  intros Hall Hm. rewrite count_hermvals_in_bounds by assumption.
  do 2 f_equal. rewrite map_map. apply map_ext. intros x.
  apply map_ext_in. intros nval Hin.
  rewrite Forall_forall in Hall. specialize (Hall nval Hin).
  cbn [hermval reference_numerics lift1]. f_equal.
  apply hermite_series_one_hot. lia.
Qed.

Lemma count_hermvals_needs_last_maximal_witness :
  @count_hermvals reference_numerics [3; 1] [Fin 0] = Err IndexError.
Proof.
  apply (@count_hermvals_needs_last_maximal reference_numerics [3; 1] [Fin 0] 3).
  - vm_compute. split; congruence.
  - simpl. tauto.
  - simpl. lia.
Defined.

Lemma encode_data_phase_witness :
  exists amplitude phase,
    @encode_data reference_numerics [0; 1; 2] [Fin 0] [Fin 3] = Ok (amplitude, phase) /\
    entry phase 0 2 = Some (Fin (3 * 2)).
Proof.
  destruct (@encode_data_phase reference_numerics [0; 1; 2] [Fin 0] [Fin 3]) as [Hret Hphase].
  destruct Hret as [[amplitude phase] Hr].
  - repeat constructor; simpl; lia.
  - vm_compute. reflexivity.
  - exists amplitude, phase. split; [exact Hr|].
    destruct (Hphase amplitude phase Hr) as [_ [_ [_ H]]].
    apply (H 0%nat 2%nat 3%R 2); reflexivity.
Defined.

Local Close Scope Z_scope.

(** ** [predict] *)

Local Open Scope R_scope.

(** *** Sums of floats *)

Lemma fold_fadd_fin (l : list R) (a : R) :
  fold_left fadd (map Fin l) (Fin a) = Fin (a + rsum l).
Proof.
  revert a. induction l as [|x l IH]; intros a; simpl.
  - f_equal. ring.
  - rewrite IH. f_equal. ring.
Qed.

Lemma fsum_fin (l : list R) : fsum (map Fin l) = Fin (rsum l).
Proof.
  unfold fsum. rewrite fold_fadd_fin. f_equal. ring.
Qed.

Lemma finite_list (l : list scalar) :
  Forall finite l -> exists rs, l = map Fin rs.
Proof.
  induction 1 as [|a l [r ->] _ [rs ->]].
  - exists []. reflexivity.
  - exists (r :: rs). reflexivity.
Qed.

Lemma positive_list (l : list scalar) :
  Forall strictly_positive l -> exists rs, l = map Fin rs /\ Forall (fun r => 0 < r) rs.
Proof.
  induction 1 as [|a l [r [-> Hr]] _ [rs [-> Hrs]]].
  - exists []. split; [reflexivity | constructor].
  - exists (r :: rs). split; [reflexivity | now constructor].
Qed.

Lemma rsum_pos (l : list R) :
  l <> [] -> Forall (fun r => 0 < r) l -> 0 < rsum l.
Proof.
  intros Hne H. destruct H as [|x l Hx Hl]; [congruence|]. clear Hne.
  simpl. assert (0 <= rsum l); [|lra].
  induction Hl as [|y l Hy _ IH]; simpl; lra.
Qed.

Lemma rsum_scale (l : list R) (s : R) :
  rsum (map (fun r => r / s) l) = rsum l / s.
Proof.
  induction l as [|x l IH]; simpl; [unfold Rdiv; ring|].
  rewrite IH. unfold Rdiv. ring.
Qed.

Lemma rsum_repeat (a : R) (k : nat) : rsum (repeat a k) = INR k * a.
Proof.
  induction k as [|k IH]; [simpl; ring|].
  cbn [repeat rsum fold_right]. fold (rsum (repeat a k)). rewrite IH, S_INR. ring.
Qed.

Lemma fmean_fin (l : list R) :
  l <> [] -> fmean (map Fin l) = Fin (rsum l / INR (length l)).
Proof.
  intros Hne. unfold fmean. rewrite fsum_fin, length_map. unfold fdiv.
  destruct (Req_dec_T (INR (length l)) 0) as [E|_]; [|reflexivity].
  exfalso. destruct l; [congruence|]. simpl length in E.
  revert E. apply not_0_INR. discriminate.
Qed.

(** *** Normalised amplitudes *)

Lemma normalised_amplitude (rs : list R) (s : R) :
  0 < s -> Forall (fun r => 0 < r) rs ->
  map (fun q => fsqr (fsqrt (fdiv q (Fin s)))) (map Fin rs) = map Fin (map (fun r => r / s) rs).
Proof.
  intros Hs H. rewrite !map_map. apply map_ext_in. intros r Hr.
  rewrite Forall_forall in H. specialize (H r Hr).
  unfold fdiv. destruct (Req_dec_T s 0) as [E|_]; [lra|].
  unfold fsqrt. assert (0 < r / s) by (apply Rdiv_lt_0_compat; assumption).
  destruct (Rlt_dec (r / s) 0) as [Hn|_]; [lra|].
  unfold fsqr, lift1. f_equal. apply Rsqr_sqrt. lra.
Qed.

Section ModelFacts.

Context {num : Numerics} {be : Backend}.

Lemma bind_ok {A B : Type} (m : M A) (k : A -> M B) (w w1 : world) (a : A) :
  m w = (Ok a, w1) -> bind m k w = k a w1.
Proof. intros H. unfold bind. now rewrite H. Qed.

Lemma bind_err {A B : Type} (m : M A) (k : A -> M B) (w w1 : world) (e : pyerr) :
  m w = (Err e, w1) -> bind m k w = (Err e, w1).
Proof. intros H. unfold bind. now rewrite H. Qed.

Lemma arange_length (n : Z) (l : list Z) : arange n = Ok l -> length l = Z.to_nat n.
Proof.
  unfold arange. destruct (n <=? max_int)%Z; [|discriminate].
  intros H. inversion H. now rewrite length_map, length_seq.
Qed.

Lemma enumerate_nonempty (vs : nat) (vis : list (list Z)) :
  enumerate vs = Ok vis -> vis <> [].
Proof.
  unfold enumerate. intros H. apply rbind_ok in H. destruct H as [idx [Ha Hv]].
  apply arange_length in Ha. apply mapM_length in Hv.
  assert (0 < 2 ^ Z.of_nat vs)%Z by (apply Z.pow_pos_nonneg; lia).
  intros ->. simpl in Hv. lia.
Qed.

(** C2.  On every model whose amplitude RBM gives one strictly positive
    finite value per vector of the full basis, trained or not,
    [predict()] returns an amplitude vector whose squared entries sum to
    one, in real arithmetic. *)
Theorem predict_amplitude_normalised (w : world) (vis : list (list Z)) :
  enumerate (vis_size (self w)) = Ok vis ->
  Forall2 (fun _ q => strictly_positive q) vis (rbm_prob (amplitude_rbm (self w)) vis) ->
  exists amplitude phase,
    predict w = (Ok (amplitude, phase), w) /\ fsum (map fsqr amplitude) = Fin 1.
Proof.
  intros Hvis Hpos. unfold predict, bind, read, lift, ret. rewrite Hvis.
  eexists. eexists. split; [reflexivity|].
  assert (Hne : rbm_prob (amplitude_rbm (self w)) vis <> []).
  { pose proof (enumerate_nonempty _ Hvis) as Hv.
    destruct Hpos; [congruence | discriminate]. }
  assert (Hall : Forall strictly_positive (rbm_prob (amplitude_rbm (self w)) vis)).
  { clear - Hpos. induction Hpos; constructor; assumption. }
  destruct (positive_list Hall) as [rs [Hrs Hp]]. rewrite Hrs in *.
  assert (Hs : 0 < rsum rs).
  { apply rsum_pos; [|assumption]. intros ->. now apply Hne. }
  rewrite fsum_fin, map_map.
  change (fun x => fsqr (fsqrt (fdiv x (Fin (rsum rs)))))
    with (fun q => fsqr (fsqrt (fdiv q (Fin (rsum rs))))).
  rewrite (normalised_amplitude Hs Hp), fsum_fin, rsum_scale.
  f_equal. field. lra.
Qed.

(** C10.  [predict] and [loss] are queries: they end in the world they
    started in, so every field of the [Tomograph] (the parameters of
    both RBMs, [vis_size], [hid_size], [gibbs], [n_samples],
    [n_gibbs_steps], [_eps]) keeps its value, whether they return or
    raise. *)
Theorem predict_and_loss_read_only (w : world) (data_states : matrix * matrix)
    (predicted : list scalar * list scalar) :
  snd (predict w) = w /\ snd (loss data_states predicted w) = w /\
  self (snd (predict w)) = self w /\ self (snd (loss data_states predicted w)) = self w.
Proof.
  assert (Hp : snd (predict w) = w).
  { unfold predict, bind, read, lift, ret.
    destruct (enumerate (vis_size (self w))); reflexivity. }
  assert (Hl : snd (loss data_states predicted w) = w).
  { unfold loss, bind, read, lift.
    destruct (loss_value _ data_states predicted); reflexivity. }
  rewrite Hp, Hl. repeat split.
Qed.

End ModelFacts.

Lemma predict_amplitude_normalised_witness :
  exists amplitude phase,
    predict (small_world false) = (Ok (amplitude, phase), small_world false) /\
    fsum (map fsqr amplitude) = Fin 1.
Proof.
  apply (@predict_amplitude_normalised uniform_backend
           (small_world false) [[0; 0]; [0; 1]; [1; 0]; [1; 1]]%Z).
  - reflexivity.
  - simpl. repeat constructor; exists 1; split; try reflexivity; lra.
Defined.

Local Close Scope R_scope.

(** ** [loss] under a phase shift *)

Local Open Scope R_scope.

(** *** Shapes and finiteness under broadcasting *)

Lemma bdim_cases (a b r : nat) :
  bdim a b = Ok r -> (a = r \/ a = 1%nat) /\ (b = r \/ b = 1%nat).
Proof.
  unfold bdim. destruct (Nat.eqb_spec a b) as [->|_].
  - intros H. inversion H. tauto.
  - destruct (Nat.eqb_spec a 1) as [->|_].
    + intros H. inversion H. tauto.
    + destruct (Nat.eqb_spec b 1) as [->|_]; [|discriminate].
      intros H. inversion H. tauto.
Qed.

Lemma expand_length {A : Type} (n : nat) (l : list A) :
  length l = n \/ length l = 1%nat -> length (expand n l) = n.
Proof.
  intros [H|H].
  - now rewrite expand_same.
  - destruct l as [|a [|b l]]; try discriminate. simpl. apply repeat_length.
Qed.

Lemma expand_Forall {A : Type} (P : A -> Prop) (n : nat) (l : list A) :
  Forall P l -> Forall P (expand n l).
Proof.
  intros H. destruct l as [|a [|b l]]; try assumption.
  simpl. apply Forall_forall. intros x Hx. apply repeat_spec in Hx. subst.
  now inversion H.
Qed.

Lemma zip_with_Forall {A B C : Type} (f : A -> B -> C) (P : A -> Prop) (Q : B -> Prop)
    (S : C -> Prop) (l : list A) (m : list B) :
  (forall a b, P a -> Q b -> S (f a b)) ->
  Forall P l -> Forall Q m -> Forall S (zip_with f l m).
Proof.
  intros Hf Hl. revert m. induction Hl as [|a l Ha _ IH]; intros m Hm; [constructor|].
  destruct Hm as [|b m Hb Hm]; simpl; constructor; auto.
Qed.

Lemma bcast_mat_shape (f : scalar -> scalar -> scalar) (a b m : matrix) :
  bcast_mat f a b = Ok m ->
  bdim (ncols a) (ncols b) = Ok (ncols m) /\ bdim (nrows a) (nrows b) = Ok (nrows m).
Proof.
  unfold bcast_mat. intros H.
  rbind_inv H c Hc.
  rbind_inv H r Hr.
  inversion H; subst. clear H. unfold nrows at 3. cbn [ncols rows].
  split; [assumption|]. rewrite Hr. f_equal.
  destruct (bdim_cases _ _ Hr) as [Ha Hb].
  rewrite zip_with_length; rewrite !expand_length; auto.
Qed.

Lemma bcast_mat_rectangular (f : scalar -> scalar -> scalar) (a b m : matrix) :
  rectangular a -> rectangular b -> bcast_mat f a b = Ok m -> rectangular m.
Proof.
  unfold bcast_mat, rectangular. intros Ha Hb H.
  rbind_inv H c Hc.
  rbind_inv H r Hr.
  inversion H; subst. clear H. cbn [ncols rows].
  destruct (bdim_cases _ _ Hc) as [Hca Hcb].
  eapply zip_with_Forall; [|apply expand_Forall; exact Ha | apply expand_Forall; exact Hb].
  cbn beta. intros ra rb Hra Hrb.
  rewrite zip_with_length; rewrite !expand_length; auto.
  - rewrite Hra. assumption.
  - rewrite Hrb. assumption.
  - rewrite Hra. assumption.
Qed.

Lemma bcast_mat_finite (f : scalar -> scalar -> scalar) (a b m : matrix) :
  (forall u v, finite u -> finite v -> finite (f u v)) ->
  finite_mat a -> finite_mat b -> bcast_mat f a b = Ok m -> finite_mat m.
Proof.
  unfold bcast_mat, finite_mat. intros Hf Ha Hb H.
  rbind_inv H c Hc.
  rbind_inv H r Hr.
  inversion H; subst. clear H. cbn [rows].
  eapply zip_with_Forall; [|apply expand_Forall; exact Ha | apply expand_Forall; exact Hb].
  cbn beta. intros ra rb Hra Hrb.
  eapply zip_with_Forall; [|apply expand_Forall; exact Hra | apply expand_Forall; exact Hrb].
  exact Hf.
Qed.

Lemma lift2_finite (g : R -> R -> R) (u v : scalar) :
  finite u -> finite v -> finite (lift2 g u v).
Proof. intros [x ->] [y ->]. eexists; reflexivity. Qed.

Lemma lift1_finite (g : R -> R) (u : scalar) : finite u -> finite (lift1 g u).
Proof. intros [x ->]. eexists; reflexivity. Qed.

Lemma map_mat_finite (g : R -> R) (m : matrix) :
  finite_mat m -> finite_mat (map_mat (lift1 g) m).
Proof.
  unfold finite_mat, map_mat. cbn [rows]. intros H.
  apply Forall_map. eapply Forall_impl; [|exact H]. cbn beta. intros r Hr.
  apply Forall_map. eapply Forall_impl; [|exact Hr]. apply lift1_finite.
Qed.

Lemma fsum_finite (l : list scalar) : Forall finite l -> finite (fsum l).
Proof.
  intros H. destruct (finite_list H) as [rs ->]. rewrite fsum_fin. eexists; reflexivity.
Qed.

(** *** The phase shift *)

Lemma fsub_shift (c : R) (u v : scalar) :
  fsub (fadd u (Fin c)) (fadd v (Fin c)) = fsub u v.
Proof.
  destruct u as [x|], v as [y|]; try reflexivity.
  unfold fsub, fadd, lift2. f_equal. ring.
Qed.

Lemma phases_shift (c : R) (data_phases : matrix) (predicted_phase : list scalar) :
  bcast_mat fsub (map_mat (fun v => fadd v (Fin c)) data_phases)
    (row_mat (map (fun v => fadd v (Fin c)) predicted_phase)) =
  bcast_mat fsub data_phases (row_mat predicted_phase).
Proof.
  unfold bcast_mat, map_mat, row_mat, nrows. cbn [ncols rows]. rewrite !length_map.
  destruct (bdim (ncols data_phases) (length predicted_phase)) as [k|e]; [|reflexivity].
  cbn [rbind length].
  destruct (bdim (length (rows data_phases)) 1) as [r|e]; [|reflexivity].
  cbn [rbind]. do 2 f_equal.
  rewrite expand_map, !expand_single, <- map_repeat, zip_with_map.
  apply zip_with_ext. intros ra rb.
  rewrite !expand_map, zip_with_map. apply zip_with_ext. intros u v. apply fsub_shift.
Qed.

Section LossFacts.

Context {num : Numerics} {be : Backend}.

(** C3.  Adding one real constant [c] to every entry of the predicted
    phase vector and to every entry of the data phase matrix leaves
    [loss(data_states, predicted_state)] as it was, for operands of any
    shape. *)
Theorem loss_global_phase_invariant (w : world) (c : R)
    (data_amplitudes data_phases : matrix)
    (predicted_amplitude predicted_phase : list scalar) :
  loss (data_amplitudes, map_mat (fun v => fadd v (Fin c)) data_phases)
       (predicted_amplitude, map (fun v => fadd v (Fin c)) predicted_phase) w =
  loss (data_amplitudes, data_phases) (predicted_amplitude, predicted_phase) w.
Proof.
  unfold loss, bind, read, lift, loss_value, likelihood.
  rewrite phases_shift. reflexivity.
Qed.

End LossFacts.

Local Close Scope R_scope.

(** ** The ceiling of [loss] *)

Local Open Scope R_scope.

(** *** The likelihood is a sum of two squares *)

Lemma fsqr_nonneg (u : scalar) : finite u -> nonneg (fsqr u).
Proof.
  intros [x ->]. exists (Rsqr x). split; [reflexivity | apply Rle_0_sqr].
Qed.

Lemma fadd_nonneg (u v : scalar) : nonneg u -> nonneg v -> nonneg (fadd u v).
Proof.
  intros [x [-> Hx]] [y [-> Hy]]. exists (x + y). split; [reflexivity | lra].
Qed.

Lemma row_mat_finite (v : list scalar) : Forall finite v -> finite_mat (row_mat v).
Proof. intros H. unfold finite_mat, row_mat. cbn [rows]. now constructor. Qed.

Lemma sum_dim1_sqr_nonneg (m : matrix) :
  finite_mat m -> Forall nonneg (map fsqr (sum_dim1 m)).
Proof.
  unfold finite_mat, sum_dim1. intros H. rewrite map_map. apply Forall_map.
  eapply Forall_impl; [|exact H]. cbn beta. intros r Hr.
  apply fsqr_nonneg. now apply fsum_finite.
Qed.

Lemma likelihood_nonneg (data_states : matrix * matrix)
    (predicted : list scalar * list scalar) (ls : list scalar) :
  finite_mat (fst data_states) -> finite_mat (snd data_states) ->
  Forall finite (fst predicted) -> Forall finite (snd predicted) ->
  likelihood data_states predicted = Ok ls -> Forall nonneg ls.
Proof.
  destruct data_states as [da dp], predicted as [pa pp]. cbn [fst snd].
  intros Hda Hdp Hpa Hpp H. unfold likelihood in H.
  rbind_inv H amplitudes Ha.
  rbind_inv H phases Hp.
  rbind_inv H c Hc.
  rbind_inv H s Hs.
  assert (Fa : finite_mat amplitudes).
  { eapply bcast_mat_finite; [apply lift2_finite | exact Hda | | exact Ha].
    now apply row_mat_finite. }
  assert (Fp : finite_mat phases).
  { eapply bcast_mat_finite; [apply lift2_finite | exact Hdp | | exact Hp].
    now apply row_mat_finite. }
  assert (Fc : finite_mat c).
  { eapply bcast_mat_finite; [apply lift2_finite | exact Fa | | exact Hc].
    now apply map_mat_finite. }
  assert (Fs : finite_mat s).
  { eapply bcast_mat_finite; [apply lift2_finite | exact Fa | | exact Hs].
    now apply map_mat_finite. }
  unfold bcast_vec in H. rbind_drop H n.
  inversion H; subst. clear H.
  eapply zip_with_Forall;
    [| apply expand_Forall, sum_dim1_sqr_nonneg; exact Fc
     | apply expand_Forall, sum_dim1_sqr_nonneg; exact Fs].
  apply fadd_nonneg.
Qed.

Lemma log_terms_finite (eps : R) (ls : list scalar) :
  0 < eps -> Forall nonneg ls ->
  exists rs, map (fun v => flog (fadd v (Fin eps))) ls = map Fin rs /\ length rs = length ls.
Proof.
  intros He. induction 1 as [|v ls [r [-> Hr]] _ [rs [IH Hl]]].
  - exists []. split; reflexivity.
  - exists (ln (r + eps) :: rs). cbn [map length]. rewrite IH, Hl. split; [|reflexivity].
    f_equal. cbn [fadd lift2 flog].
    destruct (Rlt_dec 0 (r + eps)) as [_|Hn]; [reflexivity | lra].
Qed.

Lemma log_terms_zero (eps : R) (ls : list scalar) :
  0 < eps -> Forall (fun v => v = Fin 0) ls ->
  map (fun v => flog (fadd v (Fin eps))) ls = map Fin (repeat (ln eps) (length ls)).
Proof.
  intros He. induction 1 as [|v ls -> _ IH]; [reflexivity|].
  cbn [map length repeat]. rewrite IH. f_equal. cbn [fadd lift2 flog].
  rewrite Rplus_0_l. destruct (Rlt_dec 0 eps) as [_|Hn]; [reflexivity | lra].
Qed.

Section LossCeiling.

Context {num : Numerics} {be : Backend}.

(** C6, as the code has it.  With [eps > 0] and at least one data row:
    when every per-row likelihood is exactly [0], [loss] returns exactly
    [- log(eps)]; and on finite operands every per-row likelihood is a
    finite number that is not negative, so that the logarithm is taken
    of a positive number and [loss] returns a finite value. *)
Theorem loss_ceiling_and_finiteness (w : world) (data_states : matrix * matrix)
    (predicted : list scalar * list scalar) (ls : list scalar) :
  0 < _eps (self w) ->
  likelihood data_states predicted = Ok ls ->
  ls <> [] ->
  (Forall (fun v => v = Fin 0) ls ->
   loss data_states predicted w = (Ok (Fin (- ln (_eps (self w)))), w)) /\
  (finite_mat (fst data_states) -> finite_mat (snd data_states) ->
   Forall finite (fst predicted) -> Forall finite (snd predicted) ->
   Forall nonneg ls /\ exists v, loss data_states predicted w = (Ok (Fin v), w)).
Proof.
  intros He Hl Hne. unfold loss, bind, read, lift, loss_value. rewrite Hl. cbn [rbind].
  split.
  - intros Hz. rewrite (log_terms_zero He Hz).
    rewrite fmean_fin by (destruct ls; [congruence | discriminate]).
    rewrite rsum_repeat, repeat_length. cbn [fneg lift1]. do 3 f_equal.
    field. apply not_0_INR. destruct ls; [congruence | discriminate].
  - intros F1 F2 F3 F4.
    pose proof (likelihood_nonneg _ _ F1 F2 F3 F4 Hl) as Hnn. split; [exact Hnn|].
    destruct (log_terms_finite He Hnn) as [rs [-> Hlen]].
    rewrite fmean_fin by (destruct rs, ls; try discriminate; congruence).
    cbn [fneg lift1]. eexists; reflexivity.
Qed.

End LossCeiling.

Lemma loss_ceiling_and_finiteness_witness :
  loss (Mat 1 [[Fin 0]], Mat 1 [[Fin 0]]) ([Fin 1], [Fin 0]) (small_world false) =
    (Ok (Fin (- ln (1 / 100000000))), small_world false).
Proof.
  refine (proj1 (@loss_ceiling_and_finiteness uniform_backend (small_world false)
                   (Mat 1 [[Fin 0]], Mat 1 [[Fin 0]]) ([Fin 1], [Fin 0])
                   [Fin (Rsqr (0 + 0 * 1 * cos (0 - 0)) + Rsqr (0 + 0 * 1 * sin (0 - 0)))]
                   _ _ _) _).
  - simpl. lra.
  - reflexivity.
  - discriminate.
  - constructor; [|constructor]. f_equal. unfold Rsqr. ring.
Defined.

(** C6 as stated fails on a batch without rows: every per-row likelihood
    is zero since there is none, and the mean of no value is nan. *)
Lemma loss_of_empty_batch_is_nan :
  likelihood (Mat 1 [], Mat 1 []) ([Fin 1], [Fin 0]) = Ok [] /\
  loss (Mat 1 [], Mat 1 []) ([Fin 1], [Fin 0]) (small_world false) =
    (Ok NaN, small_world false).
Proof.
  assert (H : likelihood (Mat 1 [], Mat 1 []) ([Fin 1], [Fin 0]) = Ok [])
    by reflexivity.
  split; [exact H|].
  unfold loss, bind, read, lift, loss_value. rewrite H.
  cbn [rbind map]. unfold fmean, fsum, fdiv. cbn [fold_left length INR].
  destruct (Req_dec_T 0 0) as [_|Hn]; [reflexivity | congruence].
Qed.

Local Close Scope R_scope.

(** ** Index tensors of [fit] *)

Local Open Scope Z_scope.

(** *** Index tensors made by [arange] and [randint] *)

Lemma arange_spec (n : Z) (l : list Z) :
  arange n = Ok l -> l = map Z.of_nat (seq 0 (Z.to_nat n)) /\ n <= max_int.
Proof.
  unfold arange. destruct (Z.leb_spec n max_int) as [Hle|_]; [|discriminate].
  intros E. inversion E. split; [reflexivity | assumption].
Qed.

Lemma arange_ok (n : Z) :
  n <= max_int -> arange n = Ok (map Z.of_nat (seq 0 (Z.to_nat n))).
Proof.
  intros H. unfold arange. destruct (Z.leb_spec n max_int); [reflexivity | lia].
Qed.

Lemma seq_in_range (n : nat) :
  Forall (fun i => 0 <= i < Z.of_nat n) (map Z.of_nat (seq 0 n)).
Proof.
  apply Forall_forall. intros i Hi. apply in_map_iff in Hi.
  destruct Hi as [k [<- Hk]]. apply in_seq in Hk. lia.
Qed.

Lemma last_seq (n : nat) :
  (0 < n)%nat -> last (map Z.of_nat (seq 0 n)) 0 = Z.of_nat n - 1.
Proof.
  intros H. destruct n as [|n]; [lia|].
  rewrite seq_S, map_app. cbn [map]. rewrite last_last. simpl Nat.add. lia.
Qed.

Lemma nth_seq (n : nat) (j : nat) :
  (j < n)%nat -> nth j (map Z.of_nat (seq 0 n)) 0 = Z.of_nat j.
Proof.
  intros H. change 0 with (Z.of_nat 0). rewrite map_nth, seq_nth by assumption.
  reflexivity.
Qed.

Lemma gather_seq (n : nat) (picks : list Z) :
  Forall (fun i => 0 <= i < Z.of_nat n) picks ->
  gather 0 (map Z.of_nat (seq 0 n)) picks = Ok picks.
Proof.
  intros H. unfold gather. rewrite length_map, length_seq.
  assert (Hm : mapM (py_index n) picks = Ok (map Z.to_nat picks)).
  { induction H as [|i picks Hi _ IH]; [reflexivity|].
    cbn [mapM map]. rewrite py_index_in_bounds, IH by assumption. reflexivity. }
  rewrite Hm. cbn [rbind]. f_equal. rewrite map_map.
  rewrite <- (map_id picks) at 2. apply map_ext_in. intros i Hi.
  rewrite Forall_forall in H. specialize (H i Hi).
  rewrite nth_seq by lia. lia.
Qed.

Lemma pow2_nat (vs : nat) : 2 ^ Z.of_nat vs = Z.of_nat (2 ^ vs).
Proof.
  induction vs as [|vs IH]; [reflexivity|].
  rewrite Nat2Z.inj_succ, Z.pow_succ_r, IH by lia. cbn [Nat.pow]. lia.
Qed.

Lemma pow2_le_max (vs : nat) : (vs < 63)%nat -> 2 ^ Z.of_nat vs <= max_int.
Proof.
  intros H. unfold max_int, half.
  assert (2 ^ Z.of_nat vs <= 2 ^ 62) by (apply Z.pow_le_mono_r; lia). lia.
Qed.

(** *** Rows of bits *)

Lemma bit_row_index (vs : nat) (row : list Z) :
  (vs < 63)%nat -> bit_row vs row ->
  0 <= vis2idx_row row < 2 ^ Z.of_nat vs.
Proof.
  intros Hvs [Hlen Hbin].
  pose proof (msb_value_nonneg Hbin) as Hnn.
  pose proof (msb_value_bound Hbin) as Hb. rewrite Hlen in Hb.
  pose proof (pow2_le_max Hvs).
  rewrite vis2idx_row_value by (try assumption; lia). lia.
Qed.

Lemma vis2idx_in_range (vs : nat) (vis : list (list Z)) :
  (vs < 63)%nat -> Forall (bit_row vs) vis ->
  Forall (fun i => 0 <= i < 2 ^ Z.of_nat vs) (vis2idx vis).
Proof.
  intros Hvs H. unfold vis2idx. apply Forall_map.
  eapply Forall_impl; [|exact H]. cbn beta. intros row. now apply bit_row_index.
Qed.

Lemma idx2vis_bit_rows (vs : nat) (idx : list Z) :
  Forall (index_in_range vs) idx ->
  exists vis, idx2vis idx vs = Ok vis /\ Forall (bit_row vs) vis.
Proof.
  intros H. destruct (idx2vis_in_range H) as [vis [Hv Hall]].
  exists vis. split; [assumption|].
  clear - Hall. induction Hall as [|i row idx vis [Hl [Hb _]] _ IH]; constructor;
    [now split | assumption].
Qed.

Section FitFacts.

Context {num : Numerics} {be : Backend}.

Lemma enumerate_bit_rows (vs : nat) :
  (vs < 63)%nat ->
  exists vis, enumerate vs = Ok vis /\ Forall (bit_row vs) vis.
Proof.
  intros Hvs. unfold enumerate. rewrite arange_ok by now apply pow2_le_max.
  cbn [rbind]. apply idx2vis_bit_rows.
  rewrite pow2_nat, Nat2Z.id. unfold index_in_range. rewrite pow2_nat.
  apply seq_in_range.
Qed.

Lemma enumerate_any_bit_rows (vs : nat) (vis : list (list Z)) :
  enumerate vs = Ok vis -> Forall (bit_row vs) vis.
Proof.
  unfold enumerate. intros H. apply rbind_ok in H. destruct H as [idx [Ha Hv]].
  apply arange_spec in Ha. destruct Ha as [-> _].
  destruct (@idx2vis_bit_rows vs (map Z.of_nat (seq 0 (Z.to_nat (2 ^ Z.of_nat vs)))))
    as [vis' [Hv' Hb]].
  - rewrite pow2_nat, Nat2Z.id. unfold index_in_range. rewrite pow2_nat.
    apply seq_in_range.
  - rewrite Hv in Hv'. inversion Hv'. assumption.
Qed.

Lemma draws_in_range (high : Z) (n : nat) (g : Rng) :
  0 < high -> Forall (fun r => 0 <= r < high) (fst (draws high n g)).
Proof.
  intros Hh. revert g. induction n as [|n IH]; intros g; cbn [draws]; [constructor|].
  destruct (rand_raw g) as [r g1]. specialize (IH g1).
  destruct (draws high n g1) as [rs g2]. cbn [fst] in *.
  constructor; [apply Z.mod_pos_bound; assumption | assumption].
Qed.

End FitFacts.

Local Close Scope Z_scope.

(** ** Enumeration mode *)

Local Open Scope Z_scope.

Section EnumerationMode.

Context {num : Numerics} {be : Backend}.


Lemma bind_read {A B : Type} (field : Tomograph -> A) (k : A -> M B) (w : world) :
  bind (read field) k w = k (field (self w)) w.
Proof. reflexivity. Qed.

Lemma bind_lift_ok {A B : Type} (a : A) (k : A -> M B) (w : world) :
  bind (lift (Ok a)) k w = k a w.
Proof. reflexivity. Qed.

Lemma bind_lift_err {A B : Type} (e : pyerr) (k : A -> M B) (w : world) :
  bind (lift (Err e)) k w = (Err e, w).
Proof. reflexivity. Qed.

Lemma randint_draws (high : Z) (n : nat) (w : world) :
  0 < high ->
  randint high n w =
    (Ok (fst (draws high n (rng w))),
     {| self := self w; rng := snd (draws high n (rng w)); out := out w |}).
Proof.
  intros H. unfold randint. destruct (Z.leb_spec high 0) as [|_]; [lia|].
  unfold with_rng. destruct (draws high n (rng w)); reflexivity.
Qed.








Lemma forward_enumeration (vis : list (list Z)) (w : world) :
  gibbs (self w) = false ->
  forward vis w =
    (let* v := enumerate (vis_size (self w)) in
     Ok (predicted_state (amplitude_rbm (self w)) (phase_rbm (self w)) (_eps (self w)) v, v),
     w).
Proof.
  intros Hg. unfold forward, bind, read, lift, ret. rewrite Hg.
  destruct (enumerate (vis_size (self w))); reflexivity.
Qed.







End EnumerationMode.


Local Close Scope Z_scope.

(** ** One iteration of [fit] *)

Local Open Scope Z_scope.

(** *** Shapes along one iteration *)

Lemma bcast_mat_defined (f : scalar -> scalar -> scalar) (a b : matrix) (c r : nat) :
  bdim (ncols a) (ncols b) = Ok c -> bdim (nrows a) (nrows b) = Ok r ->
  exists m, bcast_mat f a b = Ok m /\ ncols m = c /\ nrows m = r.
Proof.
  intros Hc Hr. unfold bcast_mat. rewrite Hc, Hr. cbn [rbind].
  eexists. split; [reflexivity|]. split; [reflexivity|].
  unfold nrows at 1. cbn [rows].
  destruct (bdim_cases _ _ Hr) as [Ha Hb].
  rewrite zip_with_length; rewrite !expand_length; auto.
Qed.

Lemma take_cols_defined (m : matrix) (idx : list Z) :
  Forall (fun i => 0 <= i < Z.of_nat (ncols m)) idx ->
  exists m', take_cols m idx = Ok m' /\ ncols m' = length idx /\ nrows m' = nrows m.
Proof.
  intros H. unfold take_cols.
  assert (Hm : mapM (py_index (ncols m)) idx = Ok (map Z.to_nat idx)).
  { induction H as [|i idx Hi _ IH]; [reflexivity|].
    cbn [mapM map]. rewrite py_index_in_bounds, IH by assumption. reflexivity. }
  rewrite Hm. cbn [rbind]. eexists. split; [reflexivity|].
  unfold nrows. cbn [ncols rows]. now rewrite !length_map.
Qed.


Section FitRuns.

Context {num : Numerics} {be : Backend}.

Lemma encode_data_shape (fock_indices : list Z) (x theta : list scalar)
    (amplitude phase : matrix) :
  encode_data fock_indices x theta = Ok (amplitude, phase) ->
  ncols amplitude = length fock_indices /\ nrows amplitude = length x /\
  ncols phase = length fock_indices /\ nrows phase = length theta.
Proof.
  unfold encode_data. intros H.
  rbind_inv H hermvals Hh.
  rbind_inv H a1 Ha1.
  rbind_inv H a2 Ha2.
  rewrite bcast_col_row in H. cbn [rbind] in H. inversion H; subst. clear H.
  apply count_hermvals_shape in Hh. destruct Hh as [Ch [Rh _]].
  apply bcast_mat_shape in Ha1. destruct Ha1 as [C1 R1].
  apply bcast_mat_shape in Ha2. destruct Ha2 as [C2 R2].
  cbn [col_mat row_mat ncols] in C1, C2. unfold nrows in R1 at 2. unfold nrows in R2 at 2.
  cbn [col_mat row_mat rows length] in R1, R2.
  rewrite bdim_one_r in C1, R2. rewrite !length_map in R1.
  rewrite length_map, zip_with_length, !length_map in C2 by now rewrite !length_map.
  inversion C1 as [C1']. inversion R2 as [R2'].
  rewrite Rh, bdim_same in R1. inversion R1 as [R1'].
  rewrite <- C1', Ch, bdim_same in C2. inversion C2 as [C2'].
  unfold nrows, outer. cbn [map_mat ncols rows]. rewrite !length_map.
  fold (nrows a2). rewrite <- R2', <- R1'. repeat split; congruence.
Qed.

Lemma for_each_emit {A : Type} (l : list A) (f : A -> event) (w : world) :
  for_each l (fun a => emit (f a)) w =
    (Ok tt, {| self := self w; rng := rng w; out := out w ++ map f l |}).
Proof.
  revert w. induction l as [|a l IH]; intros w; cbn [for_each map].
  - unfold ret. rewrite app_nil_r. destruct w; reflexivity.
  - unfold bind, emit. rewrite IH. cbn [self rng out]. rewrite <- app_assoc. reflexivity.
Qed.

Lemma predicted_state_lengths (a p : RBM) (eps : R) (vis : list (list Z)) :
  prob_per_row ->
  length (fst (predicted_state a p eps vis)) = length vis /\
  length (snd (predicted_state a p eps vis)) = length vis.
Proof.
  intros Hp. unfold predicted_state. cbn [fst snd]. rewrite !length_map, !Hp. split; reflexivity.
Qed.

Lemma forward_defined (vs : nat) (vis : list (list Z)) (w : world) :
  vis_size (self w) = vs -> (vs < 63)%nat ->
  (gibbs (self w) = true -> sample_keeps_bits) ->
  Forall (bit_row vs) vis ->
  exists vis' g,
    forward vis w =
      (Ok (predicted_state (amplitude_rbm (self w)) (phase_rbm (self w))
             (_eps (self w)) vis', vis'),
       {| self := self w; rng := g; out := out w |}) /\
    Forall (bit_row vs) vis'.
Proof.
  intros Hvs Hlt Hs Hb. unfold forward, bind, read, lift, ret, with_rng.
  destruct (gibbs (self w)) eqn:Hg.
  - specialize (Hs eq_refl
      (amplitude_rbm (self w)) vis (n_gibbs_steps (self w)) (rng w) vs Hb).
    destruct (rbm_sample (amplitude_rbm (self w)) vis (n_gibbs_steps (self w)) (rng w))
      as [vis' g]. cbn [fst] in Hs.
    exists vis', g. split; [reflexivity | exact Hs].
  - rewrite Hvs.
    destruct (enumerate_bit_rows Hlt) as [vis' [He Hb']]. rewrite He.
    exists vis', (rng w). split; [destruct w; reflexivity | exact Hb'].
Qed.

Lemma emit_run (ev : event) (w : world) :
  emit ev w = (Ok tt, {| self := self w; rng := rng w; out := out w ++ [ev] |}).
Proof. reflexivity. Qed.

Lemma loss_run (data_states : matrix * matrix) (predicted : list scalar * list scalar)
    (w : world) (l : scalar) :
  loss_value (_eps (self w)) data_states predicted = Ok l ->
  loss data_states predicted w = (Ok l, w).
Proof. intros H. unfold loss, bind, read, lift. now rewrite H. Qed.

Lemma optimise_run (opt : OptState) (objective : RBM * RBM -> result scalar) (w : world) :
  optimise opt objective w =
    (Ok (fst (adam_step opt objective (amplitude_rbm (self w), phase_rbm (self w)))),
     {| self := stepped (self w)
                  (snd (adam_step opt objective
                          (amplitude_rbm (self w), phase_rbm (self w))));
        rng := rng w; out := out w |}).
Proof.
  unfold optimise, bind, read.
  destruct (adam_step opt objective (amplitude_rbm (self w), phase_rbm (self w))).
  reflexivity.
Qed.

Lemma callbacks_run (callbacks : option (list Callback)) (log : epoch_log) (w : world) :
  match callbacks with
  | Some cbs => for_each cbs (fun callback => emit (Called callback log))
  | None => ret tt
  end w =
  (Ok tt, {| self := self w; rng := rng w;
             out := out w ++
                    map (fun callback => Called callback log)
                      (match callbacks with Some cbs => cbs | None => [] end) |}).
Proof.
  destruct callbacks as [cbs|]; [apply for_each_emit|].
  unfold ret. cbn [map]. rewrite app_nil_r. destruct w; reflexivity.
Qed.


End FitRuns.

Local Close Scope Z_scope.

(** ** The training loop *)

Local Open Scope Z_scope.

Section FitClaim.

Context {num : Numerics} {be : Backend}.





Lemma new_adam_ok (lr : R) (params : RBM * RBM) :
  (0 <= lr)%R -> new_adam lr params = Ok (adam_new lr (0.9, 0.99)%R params).
Proof.
  intros H. unfold new_adam. destruct (Rlt_dec lr 0) as [Hlt|_]; [lra | reflexivity].
Qed.

Lemma new_adam_negative (lr : R) (params : RBM * RBM) :
  (lr < 0)%R -> new_adam lr params = Err ValueError.
Proof.
  intros H. unfold new_adam. destruct (Rlt_dec lr 0) as [_|Hge]; [reflexivity | lra].
Qed.


End FitClaim.

Lemma uniform_prob_per_row : @prob_per_row uniform_backend.
Proof. intros r vis. apply length_map. Qed.

Lemma uniform_sample_keeps_bits : @sample_keeps_bits uniform_backend.
Proof. intros r vis k g d H. exact H. Qed.


Local Close Scope Z_scope.

(** * Further properties

    ** The codec on batches *)

Local Open Scope Z_scope.

(** *** What [idx2vis] returns and how it fails *)

Lemma idx2vis_row_bits (dim : nat) (i : Z) (row : list Z) :
  idx2vis_row dim i = Ok row -> bit_row dim row.
Proof.
  intros H.
  destruct (Z.lt_ge_cases i 0) as [Hneg|Hnn].
  { rewrite idx2vis_row_negative in H by assumption. discriminate. }
  destruct (Z.lt_ge_cases i (2 ^ Z.of_nat dim)) as [Hlt|Hge].
  - destruct (@idx2vis_row_in_range dim i) as [row' [Hr [Hl [Hb _]]]];
      [split; assumption|].
    rewrite H in Hr. inversion Hr; subst. now split.
  - destruct dim as [|dim].
    + destruct i as [|p|p]; try (simpl in Hge; lia).
      unfold idx2vis_row in H. rewrite id_bin_pos in H. cbn [rbind] in H.
      pose proof (pos_bits_length p []) as Hlen. pose proof (size_nat_pos p) as Hs.
      unfold assign_tail, tail_start in H. cbn [repeat length] in H.
      destruct (pos_bits p []) as [|a [|b l]]; cbn [length] in *; try lia.
      * cbn in H. inversion H. split; [reflexivity | constructor].
      * cbn in H. discriminate.
    + rewrite idx2vis_row_too_large in H by (try assumption; lia). discriminate.
Qed.

(** X1.  Whatever [idx2vis(idx, dim)] returns has one row per index, and
    every row has exactly [dim] entries, each [0] or [1]. *)
Theorem idx2vis_gives_bit_rows (idx : list Z) (dim : nat) (vis : list (list Z)) :
  idx2vis idx dim = Ok vis ->
  length vis = length idx /\ Forall (bit_row dim) vis.
Proof.
  intros H. split; [eapply mapM_length; exact H|].
  apply mapM_Forall2 in H.
  induction H as [|i row idx vis Hrow _ IH]; constructor; [|assumption].
  eapply idx2vis_row_bits; eassumption.
Qed.

Lemma idx2vis_gives_bit_rows_witness :
  length [[0; 1; 1]; [1; 0; 0]] = length [3; 4] /\
  Forall (bit_row 3) [[0; 1; 1]; [1; 0; 0]].
Proof.
  apply (@idx2vis_gives_bit_rows [3; 4] 3). reflexivity.
Defined.

Lemma mapM_first_error {A B : Type} (f : A -> result B) (pre post : list A) (a : A)
    (e : pyerr) :
  Forall (fun x => is_ok (f x)) pre -> f a = Err e ->
  mapM f (pre ++ a :: post) = Err e.
Proof.
  intros Hpre Ha. induction Hpre as [|x pre [b Hb] _ IH]; cbn [app mapM].
  - rewrite Ha. reflexivity.
  - rewrite Hb, IH. reflexivity.
Qed.

(** X2.  The first index out of range decides how [idx2vis] fails: a
    negative index stops it with a [ValueError] (the sign and the letter
    of [bin] reach [int]), an index of [2^dim] or more, for [dim >= 1],
    with a [RuntimeError] (too many digits for the row). *)
Theorem idx2vis_first_bad_index (dim : nat) (pre post : list Z) (i : Z) :
  Forall (fun j => 0 <= j < 2 ^ Z.of_nat dim) pre ->
  (i < 0 -> idx2vis (pre ++ i :: post) dim = Err ValueError) /\
  ((1 <= dim)%nat -> 2 ^ Z.of_nat dim <= i ->
   idx2vis (pre ++ i :: post) dim = Err RuntimeError).
Proof.
  intros Hpre.
  assert (Hok : Forall (fun j => is_ok (idx2vis_row dim j)) pre).
  { eapply Forall_impl; [|exact Hpre]. cbn beta. intros j Hj.
    destruct (@idx2vis_row_in_range dim j Hj) as [row [Hr _]]. now exists row. }
  split.
  - intros Hneg. apply mapM_first_error; [exact Hok|].
    now apply idx2vis_row_negative.
  - intros Hd Hbig. apply mapM_first_error; [exact Hok|].
    now apply idx2vis_row_too_large.
Qed.

Lemma idx2vis_first_bad_index_witness :
  idx2vis [1; -2; 9] 2 = Err ValueError /\ idx2vis [1; 9; -2] 2 = Err RuntimeError.
Proof.
  split.
  - apply (proj1 (@idx2vis_first_bad_index 2 [1] [9] (-2)
                    ltac:(repeat constructor; simpl; lia))). lia.
  - apply (proj2 (@idx2vis_first_bad_index 2 [1] [-2] 9
                    ltac:(repeat constructor; simpl; lia))); simpl; lia.
Defined.

(** *** Round trips on batches *)

(** X3.  The round trip of C1 on whole batches: for indices of an
    [int64] tensor, all in [0 <= i < 2^dim], [idx2vis] returns and
    [vis2idx] gives the batch of indices back, in order. *)
Theorem vis2idx_idx2vis_batch (dim : nat) (idx : list Z) :
  Forall (fun i => 0 <= i < 2 ^ Z.of_nat dim) idx -> Forall in_range idx ->
  exists vis, idx2vis idx dim = Ok vis /\ vis2idx vis = idx.
Proof.
  intros Hr Hm. destruct (@vis2idx_idx2vis dim idx) as [vis [H1 [H2 _]]].
  - exact Hr.
  - eapply Forall_impl; [|exact Hm]. cbn beta. intros i [_ Hi]. exact Hi.
  - exists vis. now split.
Qed.

Lemma vis2idx_idx2vis_batch_witness :
  exists vis, idx2vis [6; 0; 3] 3 = Ok vis /\ vis2idx vis = [6; 0; 3].
Proof.
  apply (@vis2idx_idx2vis_batch 3 [6; 0; 3]).
  - repeat constructor; simpl; lia.
  - repeat constructor; vm_compute; congruence.
Defined.

Lemma bit_rows_equal (r1 r2 : list Z) :
  Forall binary r1 -> Forall binary r2 -> length r1 = length r2 ->
  msb_value r1 = msb_value r2 -> r1 = r2.
Proof.
  intros H1. revert r2. induction H1 as [|d1 r1 Hd1 Hr1 IH]; intros r2 H2 Hl Hv.
  - destruct r2; [reflexivity | discriminate].
  - destruct H2 as [|d2 r2 Hd2 Hr2]; [discriminate|].
    cbn [length msb_value] in *. injection Hl as Hl. rewrite <- Hl in Hv.
    pose proof (msb_value_nonneg Hr1). pose proof (msb_value_nonneg Hr2).
    pose proof (msb_value_bound Hr1). pose proof (msb_value_bound Hr2) as Hb2.
    rewrite <- Hl in Hb2.
    assert (d1 = d2) by (destruct Hd1, Hd2; subst; lia). subst d2.
    f_equal. apply IH; try assumption. lia.
Qed.

(** X4.  The round trip the other way: a batch of bit rows of length
    [dim <= 63] is given back by [idx2vis(vis2idx(vis), dim)]. *)
Theorem idx2vis_vis2idx_batch (dim : nat) (vis : list (list Z)) :
  (dim <= 63)%nat -> Forall (bit_row dim) vis ->
  idx2vis (vis2idx vis) dim = Ok vis.
Proof.
  intros Hd Hall. unfold idx2vis, vis2idx. apply mapM_Forall2.
  induction Hall as [|row vis [Hlen Hbin] _ IH]; cbn [map]; constructor; [|exact IH].
  pose proof (msb_value_nonneg Hbin) as Hnn.
  pose proof (msb_value_bound Hbin) as Hb. rewrite Hlen in Hb.
  assert (Hmax : msb_value row <= max_int).
  { assert (2 ^ Z.of_nat dim <= 2 ^ 63) by (apply Z.pow_le_mono_r; lia).
    unfold max_int, half. lia. }
  rewrite vis2idx_row_value by assumption.
  destruct (@idx2vis_row_in_range dim (msb_value row)) as [row' [Hr [Hl' [Hb' Hv']]]];
    [split; assumption|].
  rewrite Hr. f_equal. apply bit_rows_equal; try assumption. congruence.
Qed.

Lemma idx2vis_vis2idx_batch_witness :
  idx2vis (vis2idx [[1; 0; 1]; [0; 0; 0]]) 3 = Ok [[1; 0; 1]; [0; 0; 0]].
Proof.
  apply (@idx2vis_vis2idx_batch 3 [[1; 0; 1]; [0; 0; 0]]).
  - lia.
  - repeat constructor; (now left) || (now right).
Defined.

(** *** [vis2idx] modulo [2^64] *)

Lemma wrap64_of_mod (a b : Z) : a mod modulus = b mod modulus -> wrap64 a = wrap64 b.
Proof.
  intros H. unfold wrap64. f_equal.
  rewrite (Z.add_mod a), (Z.add_mod b), H by (unfold modulus; lia). reflexivity.
Qed.

Lemma wrap64_mod (a : Z) : wrap64 a mod modulus = a mod modulus.
Proof.
  unfold wrap64.
  replace ((a + half) mod modulus - half) with ((a + half) mod modulus + - half) by ring.
  rewrite Zplus_mod_idemp_l. f_equal. ring.
Qed.

Lemma weighted_sum_mod (row : list Z) :
  zsum (zip_with Z.mul (pow2_weights (length row)) row) mod modulus =
  msb_value row mod modulus.
Proof.
  induction row as [|d row IH]; [reflexivity|].
  cbn [length msb_value]. rewrite pow2_weights_S. cbn [zip_with zsum fold_right].
  fold (zsum (zip_with Z.mul (pow2_weights (length row)) row)).
  rewrite Z.add_mod, IH, Z.mul_mod by (unfold modulus; lia).
  unfold pow2_64. rewrite wrap64_mod.
  rewrite <- Z.mul_mod, <- Z.add_mod by (unfold modulus; lia).
  f_equal. ring.
Qed.

Lemma msb_value_ones (n : nat) : msb_value (repeat 1 n) = 2 ^ Z.of_nat n - 1.
Proof.
  induction n as [|n IH]; [reflexivity|].
  cbn [repeat msb_value]. rewrite repeat_length, IH, Nat2Z.inj_succ, Z.pow_succ_r by lia.
  ring.
Qed.

(** X5.  [vis2idx] computes in [int64]: on every row it gives the
    number the row of bits spells in binary, most significant entry first,
    reduced to the two's complement range.  So an all-zero row gives [0]
    at every length, a row of [dim <= 63] ones gives [2^dim - 1], and a
    row of [64] or more ones wraps around to [-1]. *)
Theorem vis2idx_two_complement (row : list Z) (dim : nat) :
  (Forall binary row -> vis2idx_row row = wrap64 (msb_value row)) /\
  vis2idx [repeat 0 dim] = [0] /\
  ((dim <= 63)%nat -> vis2idx [repeat 1 dim] = [2 ^ Z.of_nat dim - 1]) /\
  ((64 <= dim)%nat -> vis2idx [repeat 1 dim] = [-1]).
Proof.
  assert (Hgen : forall r, vis2idx_row r = wrap64 (msb_value r)).
  { intros r. unfold vis2idx_row. rewrite sum64_zsum.
    apply wrap64_of_mod, weighted_sum_mod. }
  split; [intros _; apply Hgen|]. unfold vis2idx. cbn [map]. rewrite !Hgen.
  split; [|split].
  - replace (msb_value (repeat 0 dim)) with 0; [reflexivity|].
    pose proof (msb_value_zeros dim []) as H. rewrite app_nil_r in H. now rewrite H.
  - intros Hd. rewrite msb_value_ones. f_equal. apply wrap64_small.
    assert (0 < 2 ^ Z.of_nat dim) by (apply Z.pow_pos_nonneg; lia).
    assert (2 ^ Z.of_nat dim <= 2 ^ 63) by (apply Z.pow_le_mono_r; lia).
    unfold min_int, max_int, half. lia.
  - intros Hd. rewrite msb_value_ones. f_equal.
    change (-1) with (wrap64 (-1)). apply wrap64_of_mod.
    replace (Z.of_nat dim) with (64 + Z.of_nat (dim - 64)) by lia.
    rewrite Z.pow_add_r by lia. fold modulus.
    replace (modulus * 2 ^ Z.of_nat (dim - 64) - 1)
      with (-1 + 2 ^ Z.of_nat (dim - 64) * modulus) by ring.
    apply Z.mod_add. unfold modulus. lia.
Qed.

Lemma vis2idx_two_complement_witness :
  vis2idx [repeat 1 5] = [2 ^ Z.of_nat 5 - 1] /\ vis2idx [repeat 1 70] = [-1].
Proof.
  destruct (vis2idx_two_complement [] 5) as [_ [_ [H5 _]]].
  destruct (vis2idx_two_complement [] 70) as [_ [_ [_ H70]]].
  split; [apply H5 | apply H70]; lia.
Defined.

Local Close Scope Z_scope.

(** ** The full basis and the predicted state *)

Local Open Scope R_scope.

(** *** The full basis *)

Section BasisFacts.

Context {be : Backend}.

Lemma NoDup_of_nat (l : list nat) : NoDup l -> NoDup (map Z.of_nat l).
Proof.
  induction 1 as [|a l Ha _ IH]; cbn [map]; constructor; [|exact IH].
  intros Hin. apply in_map_iff in Hin. destruct Hin as [b [Hb Hin]].
  apply Nat2Z.inj in Hb. subst. contradiction.
Qed.

(** X6.  For [vis_size <= 62] the full basis
    [idx2vis(torch.arange(2 ** vis_size), vis_size)] exists: it has
    [2 ^ vis_size] rows of [vis_size] bits, no row twice, and row [i] is
    the vector of index [i], so that [vis2idx] of it is
    [0, 1, ..., 2 ^ vis_size - 1]. *)
Theorem enumerate_full_basis (vs : nat) :
  (vs < 63)%nat ->
  exists vis,
    enumerate vs = Ok vis /\ length vis = (2 ^ vs)%nat /\
    Forall (bit_row vs) vis /\ NoDup vis /\
    vis2idx vis = map Z.of_nat (seq 0 (2 ^ vs)).
Proof.
  intros Hvs. unfold enumerate. rewrite arange_ok by now apply pow2_le_max.
  cbn [rbind]. rewrite pow2_nat, Nat2Z.id.
  destruct (@vis2idx_idx2vis vs (map Z.of_nat (seq 0 (2 ^ vs))))
    as [vis [Hv [Hidx [Hlen Hbits]]]].
  - unfold index_in_range. rewrite pow2_nat. apply seq_in_range.
  - eapply Forall_impl; [|apply seq_in_range]. cbn beta. intros i Hi.
    pose proof (pow2_le_max Hvs) as Hm. rewrite pow2_nat in Hm.
    clear - Hi Hm. lia.
  - exists vis. split; [exact Hv|]. rewrite length_map, length_seq in Hlen.
    split; [exact Hlen|]. split; [exact Hbits|]. split; [|exact Hidx].
    apply (NoDup_map_inv vis2idx_row). fold (vis2idx vis). rewrite Hidx.
    apply NoDup_of_nat, seq_NoDup.
Qed.

Lemma forward_result (vis v : list (list Z)) (w w' : world)
    (ps : list scalar * list scalar) :
  forward vis w = (Ok (ps, v), w') ->
  ps = predicted_state (amplitude_rbm (self w)) (phase_rbm (self w)) (_eps (self w)) v /\
  self w' = self w /\ out w' = out w.
Proof.
  unfold forward, bind, read, lift, ret, with_rng.
  destruct (gibbs (self w)).
  - destruct (rbm_sample _ vis _ (rng w)) as [v' g]. intros H. inversion H; subst.
    repeat split.
  - destruct (enumerate (vis_size (self w))); intros H; inversion H; subst.
    repeat split.
Qed.

Lemma normalised_sum (probs : list scalar) :
  probs <> [] -> Forall strictly_positive probs ->
  fsum (map fsqr (map (fun q => fsqrt (fdiv q (fsum probs))) probs)) = Fin 1.
Proof.
  intros Hne Hall. destruct (positive_list Hall) as [rs [-> Hp]].
  assert (Hs : 0 < rsum rs).
  { apply rsum_pos; [|assumption]. intros ->. now apply Hne. }
  rewrite fsum_fin, map_map.
  change (fun x => fsqr (fsqrt (fdiv x (Fin (rsum rs)))))
    with (fun q => fsqr (fsqrt (fdiv q (Fin (rsum rs))))).
  rewrite (normalised_amplitude Hs Hp), fsum_fin, rsum_scale.
  f_equal. field. lra.
Qed.

(** X7.  The normalisation of [forward] is over the batch it returns, in
    Gibbs mode as in enumeration mode: when the amplitude RBM is strictly
    positive on the returned rows, and there is at least one, the squares
    of the returned amplitudes sum to one. *)
Theorem forward_amplitude_normalised (vis v : list (list Z)) (w w' : world)
    (amplitude phase : list scalar) :
  forward vis w = (Ok ((amplitude, phase), v), w') ->
  rbm_prob (amplitude_rbm (self w)) v <> [] ->
  Forall strictly_positive (rbm_prob (amplitude_rbm (self w)) v) ->
  fsum (map fsqr amplitude) = Fin 1.
Proof.
  intros Hf Hne Hpos. apply forward_result in Hf. destruct Hf as [Hps _].
  unfold predicted_state in Hps. inversion Hps; subst.
  now apply normalised_sum.
Qed.

(** X8.  [predict] is the enumeration branch of [forward]: on a model
    with [gibbs=False], whatever batch [forward] is given, it returns the
    pair that [predict] returns, next to the full basis, and raises what
    [predict] raises. *)
Theorem forward_enumeration_is_predict (vis : list (list Z)) (w : world) :
  gibbs (self w) = false ->
  (forall ps, predict w = (Ok ps, w) ->
     exists v, enumerate (vis_size (self w)) = Ok v /\ forward vis w = (Ok (ps, v), w)) /\
  (forall e, predict w = (Err e, w) -> forward vis w = (Err e, w)).
Proof.
  intros Hg. rewrite (forward_enumeration vis w Hg).
  unfold predict, bind, read, lift, ret.
  destruct (enumerate (vis_size (self w))) as [v|e0]; cbn [rbind]; split.
  - intros ps H. inversion H; subst. exists v. split; reflexivity.
  - intros e H. discriminate.
  - intros ps H. discriminate.
  - intros e H. inversion H; subst. reflexivity.
Qed.

(** *** Amplitude and phase as functions of [prob] *)

Lemma fmul_fadd (c : R) (u v : scalar) :
  fmul (Fin c) (fadd u v) = fadd (fmul (Fin c) u) (fmul (Fin c) v).
Proof.
  destruct u as [x|], v as [y|]; try reflexivity.
  cbn [fmul fadd lift2]. f_equal. ring.
Qed.

Lemma fold_fadd_scaled (c : R) (l : list scalar) (a : scalar) :
  fold_left fadd (map (fmul (Fin c)) l) (fmul (Fin c) a) =
  fmul (Fin c) (fold_left fadd l a).
Proof.
  revert a. induction l as [|x l IH]; intros a; [reflexivity|].
  cbn [map fold_left]. rewrite <- fmul_fadd. apply IH.
Qed.

Lemma fsum_scaled (c : R) (l : list scalar) :
  fsum (map (fmul (Fin c)) l) = fmul (Fin c) (fsum l).
Proof.
  unfold fsum. rewrite <- fold_fadd_scaled. f_equal.
  cbn [fmul lift2]. f_equal. ring.
Qed.

Lemma fdiv_scaled (c : R) (q s : scalar) :
  c <> 0 -> fdiv (fmul (Fin c) q) (fmul (Fin c) s) = fdiv q s.
Proof.
  intros Hc. destruct q as [x|], s as [y|]; try reflexivity.
  cbn [fmul lift2 fdiv].
  destruct (Req_dec_T (c * y) 0) as [E|E], (Req_dec_T y 0) as [E'|E']; try reflexivity.
  - exfalso. apply Rmult_integral in E. tauto.
  - exfalso. apply E. rewrite E'. ring.
  - f_equal. field. split; assumption.
Qed.

(** X9.  The amplitude does not see the scale of [prob]: two amplitude
    RBMs whose values on the batch differ by one factor [c <> 0] give
    the same amplitude vector, entry by entry. *)
Theorem amplitude_ignores_scale (a a' p : RBM) (eps c : R) (vis : list (list Z)) :
  c <> 0 ->
  rbm_prob a' vis = map (fmul (Fin c)) (rbm_prob a vis) ->
  fst (predicted_state a' p eps vis) = fst (predicted_state a p eps vis).
Proof.
  intros Hc H. unfold predicted_state. cbn [fst]. rewrite H, fsum_scaled, map_map.
  apply map_ext. intros q. now rewrite fdiv_scaled.
Qed.

(** X10.  Nothing guards the division in the amplitude: when the values
    of the amplitude RBM on the batch sum to zero, every amplitude is
    nan. *)
Theorem amplitude_nan_on_zero_sum (a p : RBM) (eps : R) (vis : list (list Z)) :
  fsum (rbm_prob a vis) = Fin 0 ->
  Forall (fun amp => amp = NaN) (fst (predicted_state a p eps vis)).
Proof.
  intros H. unfold predicted_state. cbn [fst]. rewrite H. apply Forall_map.
  apply Forall_forall. intros q _. destruct q as [x|]; [|reflexivity].
  cbn [fdiv]. destruct (Req_dec_T 0 0) as [_|E]; [reflexivity | congruence].
Qed.

Lemma ln_monotone (x y : R) : 0 < x -> x <= y -> ln x <= ln y.
Proof.
  intros Hx [Hlt|Heq].
  - left. now apply ln_increasing.
  - right. now rewrite Heq.
Qed.

(** X11.  With [eps > 0], wherever the phase RBM gives a finite value
    that is not negative, the phase is finite and at least
    [log(eps) / 2]. *)
Theorem phase_bounded_below (a p : RBM) (eps : R) (vis : list (list Z)) :
  0 < eps ->
  Forall nonneg (rbm_prob p vis) ->
  Forall (fun phi => exists r, phi = Fin r /\ ln eps / 2 <= r)
    (snd (predicted_state a p eps vis)).
Proof.
  intros He H. unfold predicted_state. cbn [snd]. apply Forall_map.
  eapply Forall_impl; [|exact H]. cbn beta. intros q [r [-> Hr]].
  cbn [fadd lift2 flog]. destruct (Rlt_dec 0 (r + eps)) as [_|Hn]; [|lra].
  cbn [fdiv]. destruct (Req_dec_T 2 0) as [E|_]; [lra|].
  eexists. split; [reflexivity|].
  assert (ln eps <= ln (r + eps)) by (apply ln_monotone; lra). lra.
Qed.

End BasisFacts.

Lemma enumerate_full_basis_witness :
  exists vis,
    @enumerate 2 = Ok vis /\ length vis = (2 ^ 2)%nat /\
    Forall (bit_row 2) vis /\ NoDup vis /\
    vis2idx vis = map Z.of_nat (seq 0 (2 ^ 2)).
Proof.
  apply (@enumerate_full_basis 2). lia.
Defined.

Lemma forward_amplitude_normalised_witness :
  fsum (map fsqr (fst (predicted_state tt tt (1 / 100000000) [[1; 0]; [0; 1]]%Z))) = Fin 1.
Proof.
  apply (@forward_amplitude_normalised uniform_backend [[1; 0]; [0; 1]]%Z
           [[1; 0]; [0; 1]]%Z (small_world true) (small_world true) _
           (snd (@predicted_state uniform_backend tt tt (1 / 100000000)
                   [[1; 0]; [0; 1]]%Z))).
  - reflexivity.
  - discriminate.
  - repeat constructor; exists 1; split; try reflexivity; lra.
Defined.

Lemma forward_enumeration_is_predict_witness :
  exists v,
    enumerate (vis_size (self (small_world false))) = Ok v /\
    forward [] (small_world false) =
      (Ok (predicted_state tt tt (1 / 100000000) [[0; 0]; [0; 1]; [1; 0]; [1; 1]]%Z, v),
       small_world false).
Proof.
  apply (proj1 (@forward_enumeration_is_predict uniform_backend [] (small_world false)
                  eq_refl)).
  reflexivity.
Defined.

Lemma amplitude_ignores_scale_witness :
  fst (@predicted_state constant_backend 3 1 (1 / 100000000) [[0]; [1]]%Z) =
  fst (@predicted_state constant_backend 1 1 (1 / 100000000) [[0]; [1]]%Z).
Proof.
  apply (@amplitude_ignores_scale constant_backend 1 3 1 (1 / 100000000) 3).
  - lra.
  - cbn. repeat f_equal; ring.
Defined.

Lemma amplitude_nan_on_zero_sum_witness :
  Forall (fun amp => amp = NaN)
    (fst (@predicted_state constant_backend 0 1 (1 / 100000000) [[0]; [1]]%Z)).
Proof.
  apply (@amplitude_nan_on_zero_sum constant_backend).
  cbn. f_equal. ring.
Defined.

Lemma phase_bounded_below_witness :
  Forall (fun phi => exists r, phi = Fin r /\ ln (1 / 100000000) / 2 <= r)
    (snd (@predicted_state constant_backend 1 0 (1 / 100000000) [[0]; [1]]%Z)).
Proof.
  apply (@phase_bounded_below constant_backend).
  - lra.
  - repeat constructor; exists 0; split; try reflexivity; lra.
Defined.

Local Close Scope R_scope.

(** ** [count_hermvals] and the rows of [encode_data] *)

Local Open Scope Z_scope.

(** *** Coefficient vectors and bounds *)

Lemma py_index_below (len : nat) (i : Z) :
  i < - Z.of_nat len -> py_index len i = Err IndexError.
Proof.
  intros H. unfold py_index.
  destruct (Z.leb_spec 0 i); destruct (Z.ltb_spec i (Z.of_nat len));
    destruct (Z.leb_spec (- Z.of_nat len) i); destruct (Z.ltb_spec i 0); try lia; reflexivity.
Qed.

Lemma py_index_from_end (len : nat) (i : Z) :
  - Z.of_nat len <= i < 0 -> py_index len i = Ok (Z.to_nat (i + Z.of_nat len)).
Proof.
  intros H. unfold py_index.
  destruct (Z.leb_spec 0 i); destruct (Z.ltb_spec i (Z.of_nat len));
    destruct (Z.leb_spec (- Z.of_nat len) i); destruct (Z.ltb_spec i 0); try lia; reflexivity.
Qed.

Section EncoderMore.

Context {num : Numerics}.

Lemma hermite_coef_from_end (n : list Z) (nval : Z) :
  0 <= last n 0 < max_int -> - (last n 0 + 1) <= nval < 0 ->
  hermite_coef n nval =
    Ok (one_hot (Z.to_nat (last n 0 + 1)) (Z.to_nat (nval + (last n 0 + 1)))).
Proof.
  intros H Hv. unfold hermite_coef, add64.
  rewrite wrap64_small by (unfold min_int, max_int, half in *; lia).
  unfold np_zeros. destruct (Z.ltb_spec (last n 0 + 1) 0); [lia|]. cbn [rbind].
  unfold np_set. rewrite py_index_from_end by (rewrite repeat_length; lia).
  cbn [rbind]. rewrite repeat_length, Z2Nat.id by lia. reflexivity.
Qed.

Lemma hermite_coef_below (n : list Z) (nval : Z) :
  0 <= last n 0 < max_int -> nval < - (last n 0 + 1) ->
  hermite_coef n nval = Err IndexError.
Proof.
  intros H Hv. unfold hermite_coef, add64.
  rewrite wrap64_small by (unfold min_int, max_int, half in *; lia).
  unfold np_zeros. destruct (Z.ltb_spec (last n 0 + 1) 0); [lia|]. cbn [rbind].
  unfold np_set. rewrite py_index_below by (rewrite repeat_length; lia).
  reflexivity.
Qed.

(** X12.  When the last requested degree is not negative,
    [count_hermvals(n, x)] returns exactly when every requested degree
    [nval] satisfies [-(n[-1] + 1) <= nval <= n[-1]]; it then returns a
    matrix with one row per [x] and one column per degree.  A negative
    degree in that range is not refused: [coef[nval]] counts from the
    end, so the column holds the series of degree [n[-1] + 1 + nval]. *)
Theorem count_hermvals_returns_iff (n : list Z) (x : list scalar) :
  0 <= last n 0 < max_int ->
  (is_ok (count_hermvals n x) <->
   Forall (fun nval => - (last n 0 + 1) <= nval <= last n 0) n) /\
  (forall h, count_hermvals n x = Ok h ->
     ncols h = length n /\ nrows h = length x /\ rectangular h) /\
  (forall nval, - (last n 0 + 1) <= nval < 0 ->
     hermite_coef n nval =
       Ok (one_hot (Z.to_nat (last n 0 + 1)) (Z.to_nat (last n 0 + 1 + nval)))).
Proof.
  intros Hl. split; [|split].
  - unfold count_hermvals. split.
    + intros [h H]. rbind_inv H coefs Hc.
      assert (Hok : is_ok (mapM (hermite_coef n) n)) by (exists coefs; exact Hc).
      apply mapM_ok_iff in Hok. eapply Forall_impl; [|exact Hok]. cbn beta.
      intros nval [c Hnv].
      destruct (Z.lt_ge_cases (last n 0) nval) as [Hgt|Hle].
      { rewrite hermite_coef_above_last in Hnv by assumption. discriminate. }
      destruct (Z.lt_ge_cases nval (- (last n 0 + 1))) as [Hlt|Hge]; [|lia].
      rewrite hermite_coef_below in Hnv by assumption. discriminate.
    + intros Hall.
      assert (Hok : is_ok (mapM (hermite_coef n) n)).
      { apply mapM_ok_iff. eapply Forall_impl; [|exact Hall]. cbn beta.
        intros nval Hnv. destruct (Z.lt_ge_cases nval 0) as [Hneg|Hnn].
        - rewrite hermite_coef_from_end by (try assumption; lia). eexists; reflexivity.
        - rewrite hermite_coef_in_bounds by lia. eexists; reflexivity. }
      destruct Hok as [coefs Hc]. rewrite Hc. cbn [rbind]. eexists; reflexivity.
  - intros h H. now apply count_hermvals_shape.
  - intros nval Hv. rewrite hermite_coef_from_end by assumption.
    do 3 f_equal. lia.
Qed.

(** *** The amplitude matrix, entry by entry *)

Lemma zip_with_map_r {A B B' C : Type} (f : A -> B' -> C) (h : B -> B')
    (l : list A) (m : list B) :
  zip_with f l (map h m) = zip_with (fun a b => f a (h b)) l m.
Proof.
  revert m. induction l as [|a l IH]; intros [|b m]; cbn [map zip_with]; try reflexivity.
  now rewrite IH.
Qed.

Lemma zip_with_ext_Forall {A B C : Type} (P : A -> Prop) (f g : A -> B -> C)
    (l : list A) (m : list B) :
  Forall P l -> (forall a b, P a -> f a b = g a b) -> zip_with f l m = zip_with g l m.
Proof.
  intros Hl Hfg. revert m. induction Hl as [|a l Ha _ IH]; intros [|b m];
    cbn [zip_with]; try reflexivity.
  now rewrite Hfg, IH.
Qed.

Lemma nth_error_zip_with {A B C : Type} (f : A -> B -> C) (l : list A) (m : list B)
    (i : nat) (a : A) (b : B) :
  nth_error l i = Some a -> nth_error m i = Some b ->
  nth_error (zip_with f l m) i = Some (f a b).
Proof.
  revert l m. induction i as [|i IH]; intros [|x l] [|y m] Hl Hm;
    cbn [nth_error zip_with] in *; try discriminate.
  - congruence.
  - now apply IH.
Qed.

Lemma bcast_mat_col (f : scalar -> scalar -> scalar) (a : matrix) (u : list scalar) :
  rectangular a -> nrows a = length u ->
  bcast_mat f a (col_mat u) =
    Ok (Mat (ncols a) (zip_with (fun ra e => map (fun v => f v e) ra) (rows a) u)).
Proof.
  intros Hr Hn. unfold bcast_mat, col_mat. unfold nrows at 2. cbn [ncols rows].
  rewrite bdim_one_r, length_map, Hn, bdim_same. cbn [rbind]. do 2 f_equal.
  rewrite (expand_same (rows a)) by exact Hn.
  rewrite (expand_same (map _ u)) by apply length_map.
  rewrite zip_with_map_r. apply (zip_with_ext_Forall _ _ _ Hr).
  intros ra e Hra. rewrite (expand_same ra Hra), expand_single, <- Hra.
  apply zip_with_repeat_r.
Qed.

Lemma bcast_mat_row (f : scalar -> scalar -> scalar) (a : matrix) (v : list scalar) :
  rectangular a -> ncols a = length v ->
  bcast_mat f a (row_mat v) =
    Ok (Mat (ncols a) (map (fun ra => zip_with f ra v) (rows a))).
Proof.
  intros Hr Hn. unfold bcast_mat, row_mat. unfold nrows at 2. cbn [ncols rows length].
  rewrite Hn, bdim_same, bdim_one_r. cbn [rbind]. do 2 f_equal.
  rewrite (expand_same (rows a)) by reflexivity. rewrite expand_single.
  unfold nrows. rewrite zip_with_repeat_r. apply map_ext_in. intros ra Hin.
  unfold rectangular in Hr. rewrite Forall_forall in Hr. specialize (Hr ra Hin).
  rewrite (expand_same ra) by congruence. rewrite (expand_same v) by reflexivity.
  reflexivity.
Qed.

Lemma zip_with_map_same {A B C D : Type} (g : B -> C -> D) (f1 : A -> B) (f2 : A -> C)
    (l : list A) :
  zip_with g (map f1 l) (map f2 l) = map (fun a => g (f1 a) (f2 a)) l.
Proof.
  induction l as [|a l IH]; cbn [map zip_with]; [reflexivity | now rewrite IH].
Qed.

(** The factor [exp(-x ** 2 / 2)] and the norm [sqrt(2 ** n * n!)] of
    [encode_data]. *)
Lemma encode_data_rows (fock_indices : list Z) (x theta : list scalar)
    (amplitude phase : matrix) :
  encode_data fock_indices x theta = Ok (amplitude, phase) ->
  exists coefs,
    mapM (hermite_coef fock_indices) fock_indices = Ok coefs /\
    rows amplitude =
      map (fun xi =>
             map (fun a => fdiv a (Fin (Rpower PI (1 / 4))))
               (zip_with fdiv
                  (map (fun c => fmul (hermval xi c)
                                   (fexp (fdiv (fneg (fsqr xi)) (Fin 2)))) coefs)
                  (map (fun n => fsqrt (fmul (of_int (pow2_int n)) (factorial n)))
                     fock_indices))) x.
Proof.
  unfold encode_data. intros H.
  destruct (count_hermvals fock_indices x) as [hermvals|e] eqn:Hh; [|discriminate].
  cbn [rbind] in H. pose proof (count_hermvals_shape _ _ Hh) as [Ch [Rh Hrect]].
  unfold count_hermvals in Hh. rbind_inv Hh coefs Hc. inversion Hh; subst hermvals.
  clear Hh. exists coefs. split; [exact Hc|].
  rewrite bcast_mat_col in H by (try assumption; rewrite Rh; now rewrite length_map).
  cbn [rbind ncols rows] in H.
  rewrite map_map, zip_with_map_same in H.
  rewrite bcast_mat_row in H.
  - cbn [rbind ncols rows] in H. rbind_drop H ph. inversion H; subst. clear H.
    cbn [map_mat rows]. rewrite !map_map. apply map_ext. intros xi.
    f_equal. f_equal.
    + now rewrite map_map.
    + now rewrite zip_with_map_same, map_map.
  - unfold rectangular. cbn [ncols rows]. apply Forall_map, Forall_forall.
    intros xi _. cbn beta. rewrite !length_map. eapply mapM_length; exact Hc.
  - cbn [ncols]. rewrite length_map, zip_with_length by now rewrite !length_map.
    now rewrite !length_map.
Qed.

End EncoderMore.

Local Close Scope Z_scope.

(** ** Entries of the amplitude matrix *)

Local Open Scope Z_scope.

Lemma pow2_64_high (k : nat) : (64 <= k)%nat -> pow2_64 k = 0.
Proof.
  intros H. unfold pow2_64, wrap64.
  replace (Z.of_nat k) with (64 + Z.of_nat (k - 64)) by lia.
  rewrite Z.pow_add_r by lia. fold modulus.
  replace (modulus * 2 ^ Z.of_nat (k - 64) + half)
    with (half + 2 ^ Z.of_nat (k - 64) * modulus) by ring.
  rewrite Z.mod_add by (unfold modulus; lia).
  rewrite Z.mod_small by (unfold half, modulus; lia). ring.
Qed.

Lemma pow2_64_sign : pow2_64 63 = - 2 ^ 63.
Proof. reflexivity. Qed.

Section EncoderEntries.

Context {num : Numerics}.

Lemma factorial_cases (n : Z) : factorial n = NaN \/ exists r, factorial n = Fin (exp r).
Proof.
  unfold factorial. destruct (lgamma _) as [r|]; [right; exists r|left]; reflexivity.
Qed.

Lemma pow2_int_of_nonneg (n : Z) : 0 <= n -> pow2_int n = pow2_64 (Z.to_nat n).
Proof.
  intros H. unfold pow2_int. destruct (Z.ltb_spec n 0); [lia | reflexivity].
Qed.

Lemma pow2_int_of_negative (n : Z) : n < 0 -> pow2_int n = 0.
Proof.
  intros H. unfold pow2_int. destruct (Z.ltb_spec n 0); [reflexivity | lia].
Qed.

Lemma fdiv_nan_r (a : scalar) : fdiv a NaN = NaN.
Proof. destruct a; reflexivity. Qed.

Lemma norm_of_zero_power (n : Z) (h : scalar) :
  fdiv h (fsqrt (fmul (of_int 0) (factorial n))) = NaN.
Proof.
  destruct (factorial_cases n) as [->|[r ->]].
  { cbn [of_int fmul lift2 fsqrt]. apply fdiv_nan_r. }
  cbn [of_int fmul lift2 fsqrt]. rewrite Rmult_0_l.
  destruct (Rlt_dec 0 0) as [Hlt|_]; [exfalso; lra|].
  rewrite sqrt_0. destruct h as [a|]; [|reflexivity].
  cbn [fdiv]. destruct (Req_dec_T 0 0) as [_|E]; [reflexivity | congruence].
Qed.

Lemma norm_high_degree (n : Z) (h : scalar) :
  63 <= n ->
  fdiv h (fsqrt (fmul (of_int (pow2_int n)) (factorial n))) = NaN.
Proof.
  intros Hn. rewrite pow2_int_of_nonneg by lia.
  destruct (Z.eq_dec n 63) as [->|Hne].
  - change (Z.to_nat 63) with 63%nat. rewrite pow2_64_sign.
    destruct (factorial_cases 63) as [->|[r ->]].
    { cbn [of_int fmul lift2 fsqrt]. apply fdiv_nan_r. }
    cbn [of_int fmul lift2 fsqrt].
    destruct (Rlt_dec (IZR (- 2 ^ 63) * exp r) 0) as [_|Hnot]; [apply fdiv_nan_r|].
    exfalso. apply Hnot.
    assert (IZR (- 2 ^ 63) < 0)%R by (apply IZR_lt; reflexivity).
    pose proof (exp_pos r). nra.
  - rewrite pow2_64_high by lia. apply norm_of_zero_power.
Qed.

Lemma norm_negative_degree (n : Z) (h : scalar) :
  n < 0 ->
  fdiv h (fsqrt (fmul (of_int (pow2_int n)) (factorial n))) = NaN.
Proof.
  intros Hn. rewrite pow2_int_of_negative by exact Hn. apply norm_of_zero_power.
Qed.

Lemma zip_with_in {A B C : Type} (f : A -> B -> C) (l : list A) (m : list B) (c : C) :
  In c (zip_with f l m) -> exists a b, In a l /\ c = f a b.
Proof.
  revert m. induction l as [|a l IH]; intros [|b m] H; cbn [zip_with] in H;
    try contradiction.
  destruct H as [<-|H].
  - exists a, b. split; [now left | reflexivity].
  - destruct (IH m H) as [a' [b' [Ha Hc]]]. exists a', b'. split; [now right | exact Hc].
Qed.

(** [encode_data] adds no failure of its own to those of
    [count_hermvals]: the three broadcasts always fit. *)
Lemma encode_data_returns_with_hermvals (fock_indices : list Z) (x theta : list scalar) :
  is_ok (count_hermvals fock_indices x) -> is_ok (encode_data fock_indices x theta).
Proof.
  intros [h Hh]. unfold encode_data. rewrite Hh. cbn [rbind].
  pose proof (count_hermvals_shape _ _ Hh) as [Ch [Rh Hrect]].
  rewrite bcast_mat_col by (try assumption; rewrite Rh; now rewrite length_map).
  cbn [rbind]. rewrite bcast_mat_row.
  - cbn [rbind]. rewrite bcast_col_row. cbn [rbind]. eexists; reflexivity.
  - unfold rectangular. cbn [ncols rows].
    unfold rectangular in Hrect. rewrite Forall_forall in Hrect.
    apply Forall_forall. intros r Hin.
    destruct (zip_with_in _ _ _ _ Hin) as [ra [e [Hra ->]]].
    rewrite length_map. now apply Hrect.
  - cbn [ncols]. rewrite Ch, length_map, zip_with_length by now rewrite !length_map.
    now rewrite !length_map.
Qed.

(** One entry of the amplitude matrix, with its norm. *)
Lemma encode_data_entry (fock_indices : list Z) (x theta : list scalar)
    (amplitude phase : matrix) (i j : nat) (xi : scalar) (n : Z) :
  encode_data fock_indices x theta = Ok (amplitude, phase) ->
  nth_error x i = Some xi -> nth_error fock_indices j = Some n ->
  exists h,
    entry amplitude i j =
      Some (fdiv (fdiv h (fsqrt (fmul (of_int (pow2_int n)) (factorial n))))
              (Fin (Rpower PI (1 / 4)))).
Proof.
  intros He Hx Hn.
  destruct (encode_data_rows _ _ _ He) as [coefs [Hc Hrows]].
  assert (Hcj : exists c, nth_error coefs j = Some c).
  { apply mapM_length in Hc.
    destruct (nth_error coefs j) as [c|] eqn:E; [now exists c|].
    apply nth_error_None in E.
    assert (j < length fock_indices)%nat by (apply nth_error_Some; congruence). lia. }
  destruct Hcj as [c Hcj].
  exists (fmul (hermval xi c) (fexp (fdiv (fneg (fsqr xi)) (Fin 2)))).
  unfold entry. rewrite Hrows, nth_error_map, Hx. cbn [option_map].
  rewrite nth_error_map.
  erewrite nth_error_zip_with;
    [| rewrite nth_error_map, Hcj; reflexivity | rewrite nth_error_map, Hn; reflexivity].
  reflexivity.
Qed.

(** X13.  For degrees of which none exceeds the last (as
    [torch.arange] gives them), [encode_data] returns, both matrices are
    rectangular with one column per degree, and the amplitude in row [i]
    and column [j] is
    [hermval(x_i, one_hot(n_j)) * exp(-x_i ** 2 / 2) / sqrt(2 ** n_j * n_j!)
     / pi ** 0.25],
    with [2 ** n_j] taken in [int64]: broadcasting pairs every [x_i]
    with every degree. *)
Theorem encode_data_amplitude_entries (fock_indices : list Z) (x theta : list scalar) :
  Forall (fun n => 0 <= n <= last fock_indices 0) fock_indices ->
  last fock_indices 0 < max_int ->
  exists amplitude phase,
    encode_data fock_indices x theta = Ok (amplitude, phase) /\
    ncols amplitude = length fock_indices /\ nrows amplitude = length x /\
    rectangular amplitude /\ rectangular phase /\
    forall i j xi n,
      nth_error x i = Some xi -> nth_error fock_indices j = Some n ->
      entry amplitude i j =
        Some (fdiv
                (fdiv
                   (fmul (hermval xi (one_hot (Z.to_nat (last fock_indices 0 + 1))
                                        (Z.to_nat n)))
                      (fexp (fdiv (fneg (fsqr xi)) (Fin 2))))
                   (fsqrt (fmul (of_int (pow2_64 (Z.to_nat n))) (factorial n))))
                (Fin (Rpower PI (1 / 4)))).
Proof.
  intros Hall Hm.
  destruct (encode_data_returns x theta Hall Hm) as [[amplitude phase] He].
  exists amplitude, phase. split; [exact He|].
  destruct (encode_data_shape _ _ _ He) as [Ca [Ra [Cp Rp]]].
  destruct (encode_data_rows _ _ _ He) as [coefs [Hc Hrows]].
  rewrite hermite_coefs_in_bounds in Hc by assumption. inversion Hc; subst coefs. clear Hc.
  split; [exact Ca|]. split; [exact Ra|]. split; [|split].
  - unfold rectangular. rewrite Hrows, Ca. apply Forall_map, Forall_forall.
    intros xi _. cbn beta. rewrite length_map, zip_with_length; now rewrite !length_map.
  - unfold encode_data in He. rbind_drop He hermvals. rbind_drop He a1.
    rbind_drop He a2.
    rewrite bcast_col_row in He. cbn [rbind] in He. inversion He; subst.
    unfold rectangular, outer. cbn [ncols rows]. apply Forall_map, Forall_forall.
    intros t _. cbn beta. now rewrite length_map.
  - intros i j xi n Hx Hn. unfold entry. rewrite Hrows.
    rewrite nth_error_map, Hx. cbn [option_map].
    rewrite nth_error_map.
    assert (Hn0 : 0 <= n).
    { rewrite Forall_forall in Hall. apply nth_error_In in Hn. apply Hall in Hn. lia. }
    erewrite nth_error_zip_with; [reflexivity | |].
    + rewrite map_map, nth_error_map, Hn. reflexivity.
    + rewrite nth_error_map, Hn. cbn [option_map].
      now rewrite pow2_int_of_nonneg.
Qed.

(** X14.  [2 ** fock_indices] is an [int64] power: it is negative at
    degree [63] and zero from degree [64] on, so the norm under the
    amplitude is the square root of a negative number or zero.  Whenever
    [encode_data] returns, the whole amplitude column of a degree
    [n >= 63] is nan, whatever [x] holds. *)
Theorem encode_data_high_degree_nan (fock_indices : list Z) (x theta : list scalar)
    (amplitude phase : matrix) (i j : nat) (xi : scalar) (n : Z) :
  encode_data fock_indices x theta = Ok (amplitude, phase) ->
  nth_error x i = Some xi -> nth_error fock_indices j = Some n -> 63 <= n ->
  entry amplitude i j = Some NaN.
Proof.
  intros He Hx Hn Hbig.
  destruct (encode_data_entry _ _ _ _ _ He Hx Hn) as [h ->].
  now rewrite norm_high_degree.
Qed.

(** X15.  A negative degree that [count_hermvals] lets through (it
    indexes the coefficient vector from the end) is not refused by
    [encode_data] either: the integer power [2 ** fock_indices] is [0]
    there, so the call returns whenever [count_hermvals] does, and the
    norm under the amplitude is the square root of [0 * n!].  The whole
    amplitude column of a degree [n < 0] is nan, whatever [x] holds. *)
Theorem encode_data_negative_degree_nan (fock_indices : list Z) (x theta : list scalar) :
  is_ok (count_hermvals fock_indices x) ->
  exists amplitude phase,
    encode_data fock_indices x theta = Ok (amplitude, phase) /\
    forall i j xi n,
      nth_error x i = Some xi -> nth_error fock_indices j = Some n -> n < 0 ->
      entry amplitude i j = Some NaN.
Proof.
  intros Hh.
  destruct (@encode_data_returns_with_hermvals fock_indices x theta Hh) as [[amplitude phase] He].
  exists amplitude, phase. split; [exact He|].
  intros i j xi n Hx Hn Hneg.
  destruct (encode_data_entry _ _ _ _ _ He Hx Hn) as [h ->].
  now rewrite norm_negative_degree.
Qed.

End EncoderEntries.

Lemma count_hermvals_returns_iff_witness :
  is_ok (@count_hermvals reference_numerics [0; 1; 2] [Fin 0]) /\
  ~ is_ok (@count_hermvals reference_numerics [0; 5; 2] [Fin 0]).
Proof.
  destruct (@count_hermvals_returns_iff reference_numerics [0; 1; 2] [Fin 0])
    as [H1 _]; [vm_compute; split; congruence|].
  destruct (@count_hermvals_returns_iff reference_numerics [0; 5; 2] [Fin 0])
    as [H2 _]; [vm_compute; split; congruence|].
  split.
  - apply H1. repeat constructor; simpl; lia.
  - intros H. apply H2 in H. inversion H as [|? ? _ H']. inversion H' as [|? ? Hbad _].
    simpl in Hbad. lia.
Defined.

Lemma encode_data_amplitude_entries_witness :
  exists amplitude phase,
    @encode_data reference_numerics [0; 1] [Fin 0] [Fin 0] = Ok (amplitude, phase) /\
    ncols amplitude = 2%nat /\ nrows amplitude = 1%nat.
Proof.
  destruct (@encode_data_amplitude_entries reference_numerics [0; 1] [Fin 0] [Fin 0])
    as [amplitude [phase [H [Hc [Hr _]]]]].
  - repeat constructor; simpl; lia.
  - vm_compute. reflexivity.
  - exists amplitude, phase. repeat split; assumption.
Defined.

Lemma encode_data_high_degree_nan_witness :
  exists amplitude phase,
    @encode_data reference_numerics [63] [Fin 0] [Fin 0] = Ok (amplitude, phase) /\
    entry amplitude 0 0 = Some NaN.
Proof.
  destruct (@encode_data_returns reference_numerics [63] [Fin 0] [Fin 0])
    as [[amplitude phase] H].
  - repeat constructor; simpl; lia.
  - vm_compute. reflexivity.
  - exists amplitude, phase. split; [exact H|].
    apply (@encode_data_high_degree_nan reference_numerics [63] [Fin 0] [Fin 0]
             amplitude phase 0 0 (Fin 0) 63 H); try reflexivity; try lia.
Defined.

Lemma encode_data_negative_degree_nan_witness :
  exists amplitude phase,
    @encode_data reference_numerics [-1; 0] [Fin 0] [Fin 0] = Ok (amplitude, phase) /\
    entry amplitude 0 0 = Some NaN.
Proof.
  destruct (@encode_data_negative_degree_nan reference_numerics [-1; 0] [Fin 0] [Fin 0])
    as [amplitude [phase [H Hnan]]].
  - eexists. reflexivity.
  - exists amplitude, phase. split; [exact H|].
    apply (Hnan 0%nat 0%nat (Fin 0) (-1)); [reflexivity | reflexivity | lia].
Defined.

Local Close Scope Z_scope.

(** ** More on [loss] *)

Local Open Scope R_scope.

(** *** The ceiling of [loss], in general *)

Lemma log_terms_bounded (eps : R) (ls : list scalar) :
  0 < eps -> Forall nonneg ls ->
  exists rs, map (fun v => flog (fadd v (Fin eps))) ls = map Fin rs /\
             length rs = length ls /\ Forall (fun r => ln eps <= r) rs.
Proof.
  intros He. induction 1 as [|v ls [r [-> Hr]] _ [rs [IH [Hl Hb]]]].
  - exists []. repeat split. constructor.
  - exists (ln (r + eps) :: rs). cbn [map length]. rewrite IH, Hl.
    split; [|split; [reflexivity|]].
    + f_equal. cbn [fadd lift2 flog].
      destruct (Rlt_dec 0 (r + eps)) as [_|Hn]; [reflexivity | lra].
    + constructor; [|exact Hb]. apply ln_monotone; lra.
Qed.

Lemma rsum_lower_bound (a : R) (rs : list R) :
  Forall (fun r => a <= r) rs -> INR (length rs) * a <= rsum rs.
Proof.
  induction 1 as [|r rs Hr _ IH]; [simpl; lra|].
  cbn [rsum fold_right]. fold (rsum rs). cbn [length]. rewrite S_INR. lra.
Qed.

Section LossMore.

Context {be : Backend}.

(** X16.  [- log(eps)] is a ceiling for every input, not only where the
    likelihood vanishes: with [eps > 0], finite operands that fit
    together and at least one data row, [loss] returns a finite value
    that is at most [- log(eps)]. *)
Theorem loss_at_most_minus_log_eps (w : world) (data_states : matrix * matrix)
    (predicted : list scalar * list scalar) (ls : list scalar) :
  0 < _eps (self w) ->
  likelihood data_states predicted = Ok ls -> ls <> [] ->
  finite_mat (fst data_states) -> finite_mat (snd data_states) ->
  Forall finite (fst predicted) -> Forall finite (snd predicted) ->
  exists v, loss data_states predicted w = (Ok (Fin v), w) /\ v <= - ln (_eps (self w)).
Proof.
  intros He Hl Hne F1 F2 F3 F4.
  pose proof (likelihood_nonneg _ _ F1 F2 F3 F4 Hl) as Hnn.
  destruct (log_terms_bounded He Hnn) as [rs [Hrs [Hlen Hb]]].
  assert (Hrne : rs <> []) by (destruct rs, ls; try discriminate; congruence).
  unfold loss, bind, read, lift, loss_value. rewrite Hl. cbn [rbind].
  rewrite Hrs, fmean_fin by exact Hrne. cbn [fneg lift1].
  eexists. split; [reflexivity|].
  pose proof (rsum_lower_bound Hb) as Hsum.
  assert (Hn : 0 < INR (length rs)).
  { apply lt_0_INR. destruct rs; [congruence | cbn [length]; lia]. }
  apply Ropp_le_contravar.
  apply Rmult_le_reg_l with (r := INR (length rs)); [exact Hn|].
  replace (INR (length rs) * (rsum rs / INR (length rs))) with (rsum rs)
    by (field; lra).
  exact Hsum.
Qed.

Lemma bdim_mismatch (a b : nat) :
  a <> b -> a <> 1%nat -> b <> 1%nat -> bdim a b = Err RuntimeError.
Proof.
  intros H1 H2 H3. unfold bdim.
  destruct (Nat.eqb_spec a b); [contradiction|].
  destruct (Nat.eqb_spec a 1); [contradiction|].
  destruct (Nat.eqb_spec b 1); [contradiction|]. reflexivity.
Qed.

(** X17.  Data and prediction over different numbers of basis states do
    not fit together: unless one of the two numbers is [1], [loss]
    raises a [RuntimeError], and the model is as it was. *)
Theorem loss_refuses_other_width (w : world) (data_amplitudes data_phases : matrix)
    (predicted_amplitude predicted_phase : list scalar) :
  ncols data_amplitudes <> length predicted_amplitude ->
  ncols data_amplitudes <> 1%nat -> length predicted_amplitude <> 1%nat ->
  loss (data_amplitudes, data_phases) (predicted_amplitude, predicted_phase) w =
    (Err RuntimeError, w).
Proof.
  intros H1 H2 H3. unfold loss, bind, read, lift, loss_value, likelihood, bcast_mat at 1.
  cbn [row_mat ncols]. rewrite (bdim_mismatch H1 H2 H3). reflexivity.
Qed.

(** *** The phase enters through [cos] and [sin] only *)

Lemma fcos_period (k : nat) (v : scalar) :
  fcos (fsub v (Fin (2 * INR k * PI))) = fcos v.
Proof.
  destruct v as [x|]; [|reflexivity]. cbn [fsub lift2 fcos lift1]. f_equal.
  rewrite <- (cos_period (x - 2 * INR k * PI) k). f_equal. ring.
Qed.

Lemma fsin_period (k : nat) (v : scalar) :
  fsin (fsub v (Fin (2 * INR k * PI))) = fsin v.
Proof.
  destruct v as [x|]; [|reflexivity]. cbn [fsub lift2 fsin lift1]. f_equal.
  rewrite <- (sin_period (x - 2 * INR k * PI) k). f_equal. ring.
Qed.

Lemma fsub_shifted (d : R) (u v : scalar) :
  fsub u (fadd v (Fin d)) = fsub (fsub u v) (Fin d).
Proof.
  destruct u as [x|], v as [y|]; try reflexivity.
  cbn [fsub fadd lift2]. f_equal. ring.
Qed.

Lemma phases_of_shifted_prediction (d : R) (data_phases : matrix)
    (predicted_phase : list scalar) :
  bcast_mat fsub data_phases (row_mat (map (fun v => fadd v (Fin d)) predicted_phase)) =
  let* phases := bcast_mat fsub data_phases (row_mat predicted_phase) in
  Ok (map_mat (fun v => fsub v (Fin d)) phases).
Proof.
  unfold bcast_mat, map_mat, row_mat, nrows. cbn [ncols rows]. rewrite !length_map.
  destruct (bdim (ncols data_phases) (length predicted_phase)) as [k|e]; [|reflexivity].
  cbn [rbind length].
  destruct (bdim (length (rows data_phases)) 1) as [r|e]; [|reflexivity].
  cbn [rbind ncols rows]. do 2 f_equal.
  rewrite !expand_single.
  generalize (expand r (rows data_phases)) as l. generalize r as n. clear.
  intros n l. revert n. induction l as [|ra l IH]; intros [|n]; cbn [repeat zip_with map];
    try reflexivity.
  rewrite IH. f_equal. rewrite expand_map.
  generalize (expand k ra) as a. generalize (expand k predicted_phase) as b. clear.
  intros b a. revert b. induction a as [|u a IH]; intros [|v b]; cbn [zip_with map];
    try reflexivity.
  now rewrite IH, fsub_shifted.
Qed.

Lemma map_mat_map_mat (f g : scalar -> scalar) (m : matrix) :
  map_mat f (map_mat g m) = map_mat (fun v => f (g v)) m.
Proof.
  unfold map_mat. cbn [ncols rows]. f_equal. rewrite map_map.
  apply map_ext. intros r. apply map_map.
Qed.

Lemma map_mat_ext (f g : scalar -> scalar) (m : matrix) :
  (forall v, f v = g v) -> map_mat f m = map_mat g m.
Proof.
  intros H. unfold map_mat. f_equal. apply map_ext. intros r. now apply map_ext.
Qed.

(** X18.  The predicted phase counts modulo [2 * PI] only: adding a
    whole number of turns to every entry of the predicted phase vector,
    the data phases left alone, does not change [loss]. *)
Theorem loss_phase_periodic (w : world) (k : nat)
    (data_amplitudes data_phases : matrix)
    (predicted_amplitude predicted_phase : list scalar) :
  loss (data_amplitudes, data_phases)
       (predicted_amplitude,
        map (fun v => fadd v (Fin (2 * INR k * PI))) predicted_phase) w =
  loss (data_amplitudes, data_phases) (predicted_amplitude, predicted_phase) w.
Proof.
  unfold loss, bind, read, lift, loss_value, likelihood.
  rewrite phases_of_shifted_prediction.
  destruct (bcast_mat fmul data_amplitudes (row_mat predicted_amplitude)) as [am|e];
    [|reflexivity].
  cbn [rbind].
  destruct (bcast_mat fsub data_phases (row_mat predicted_phase)) as [ph|e];
    [|reflexivity].
  cbn [rbind]. rewrite !map_mat_map_mat.
  rewrite (map_mat_ext _ fcos ph (fcos_period k)).
  rewrite (map_mat_ext _ fsin ph (fsin_period k)). reflexivity.
Qed.

End LossMore.

Lemma loss_at_most_minus_log_eps_witness :
  exists v,
    loss (Mat 1 [[Fin 1]], Mat 1 [[Fin 0]]) ([Fin 1], [Fin 0]) (small_world false) =
      (Ok (Fin v), small_world false) /\
    v <= - ln (1 / 100000000).
Proof.
  refine (@loss_at_most_minus_log_eps uniform_backend (small_world false)
            (Mat 1 [[Fin 1]], Mat 1 [[Fin 0]]) ([Fin 1], [Fin 0])
            [Fin (Rsqr (0 + 1 * 1 * cos (0 - 0)) + Rsqr (0 + 1 * 1 * sin (0 - 0)))]
            _ _ _ _ _ _ _).
  - simpl. lra.
  - reflexivity.
  - discriminate.
  - repeat constructor; eexists; reflexivity.
  - repeat constructor; eexists; reflexivity.
  - repeat constructor; eexists; reflexivity.
  - repeat constructor; eexists; reflexivity.
Defined.

Lemma loss_refuses_other_width_witness :
  loss (Mat 3 [[Fin 1; Fin 1; Fin 1]], Mat 3 [[Fin 0; Fin 0; Fin 0]])
       ([Fin 1; Fin 1], [Fin 0; Fin 0]) (small_world false) =
    (Err RuntimeError, small_world false).
Proof.
  apply (@loss_refuses_other_width uniform_backend); simpl; lia.
Defined.

Local Close Scope R_scope.

(** ** What [fit] leaves alone *)

Local Open Scope Z_scope.

Section FitMore.

Context {num : Numerics} {be : Backend}.

(** *** What [fit] leaves alone *)

Lemma keeps_ret {A : Type} (a : A) : keeps_config (ret a).
Proof. intros w. reflexivity. Qed.

Lemma keeps_lift {A : Type} (r : result A) : keeps_config (lift r).
Proof. intros w. reflexivity. Qed.

Lemma keeps_read {A : Type} (field : Tomograph -> A) : keeps_config (read field).
Proof. intros w. reflexivity. Qed.

Lemma keeps_emit (ev : event) : keeps_config (emit ev).
Proof. intros w. reflexivity. Qed.

Lemma keeps_set_rbms (ab : RBM * RBM) : keeps_config (set_rbms ab).
Proof. intros w. reflexivity. Qed.

Lemma keeps_with_rng {A : Type} (f : Rng -> A * Rng) : keeps_config (with_rng f).
Proof. intros w. unfold with_rng. destruct (f (rng w)). reflexivity. Qed.

Lemma keeps_bind {A B : Type} (m : M A) (k : A -> M B) :
  keeps_config m -> (forall a, keeps_config (k a)) -> keeps_config (bind m k).
Proof.
  intros Hm Hk w. specialize (Hm w). unfold bind.
  destruct (m w) as [[a|e] w1]; cbn [snd] in *.
  - rewrite (Hk a w1). exact Hm.
  - exact Hm.
Qed.

Lemma keeps_for_each {A : Type} (l : list A) (body : A -> M unit) :
  (forall a, keeps_config (body a)) -> keeps_config (for_each l body).
Proof.
  intros Hb. induction l as [|a l IH]; cbn [for_each].
  - apply keeps_ret.
  - apply keeps_bind; [apply Hb | intros _; exact IH].
Qed.

Lemma keeps_forward (vis : list (list Z)) : keeps_config (forward vis).
Proof.
  unfold forward. apply keeps_bind; [apply keeps_read | intros g].
  apply keeps_bind.
  - destruct g.
    + apply keeps_bind; [apply keeps_read | intros a].
      apply keeps_bind; [apply keeps_read | intros k]. apply keeps_with_rng.
    + apply keeps_bind; [apply keeps_read | intros vs]. apply keeps_lift.
  - intros vis'. apply keeps_bind; [apply keeps_read | intros a].
    apply keeps_bind; [apply keeps_read | intros p].
    apply keeps_bind; [apply keeps_read | intros eps]. apply keeps_ret.
Qed.

Lemma keeps_optimise (opt : OptState) (objective : RBM * RBM -> result scalar) :
  keeps_config (optimise opt objective).
Proof.
  unfold optimise. apply keeps_bind; [apply keeps_read | intros a].
  apply keeps_bind; [apply keeps_read | intros p].
  destruct (adam_step opt objective (a, p)) as [opt' ab].
  apply keeps_bind; [apply keeps_set_rbms | intros _; apply keeps_ret].
Qed.

Lemma keeps_fit_loop (encoded_data : matrix * matrix) (n_epochs : Z)
    (callbacks : option (list Callback)) (epochs : list Z)
    (vis : list (list Z)) (opt : OptState) :
  keeps_config (fit_loop encoded_data n_epochs callbacks epochs vis opt).
Proof.
  revert vis opt. induction epochs as [|e epochs IH]; intros vis opt; cbn [fit_loop].
  - apply keeps_ret.
  - apply keeps_bind; [apply keeps_forward | intros [predicted vis']].
    apply keeps_bind; [apply keeps_emit | intros _].
    apply keeps_bind; [apply keeps_lift | intros data_amplitudes].
    apply keeps_bind; [apply keeps_lift | intros data_phases].
    apply keeps_bind.
    { unfold loss. apply keeps_bind; [apply keeps_read | intros eps; apply keeps_lift]. }
    intros l. apply keeps_bind; [apply keeps_read | intros eps].
    apply keeps_bind; [apply keeps_optimise | intros opt'].
    apply keeps_bind; [|intros _; apply IH].
    destruct callbacks as [cbs|]; [|apply keeps_ret].
    apply keeps_for_each. intros cb. apply keeps_emit.
Qed.

(** X19.  Training touches the parameters of the two RBMs and nothing
    else of the model: after [fit], however it ends, [vis_size],
    [hid_size], [gibbs], [n_gibbs_steps], [n_samples], [dtype] and
    [_eps] are what they were. *)
Theorem fit_keeps_configuration (w : world) (x theta : list scalar) (n_epochs : Z)
    (lr : R) (callbacks : option (list Callback)) :
  let m' := self (snd (fit x theta n_epochs lr callbacks w)) in
  vis_size m' = vis_size (self w) /\ hid_size m' = hid_size (self w) /\
  gibbs m' = gibbs (self w) /\ n_gibbs_steps m' = n_gibbs_steps (self w) /\
  n_samples m' = n_samples (self w) /\ dtype m' = dtype (self w) /\
  _eps m' = _eps (self w).
Proof.
  cbn zeta.
  assert (H : keeps_config (fit x theta n_epochs lr callbacks)).
  { unfold fit. apply keeps_bind; [apply keeps_read | intros vs].
    apply keeps_bind; [apply keeps_lift | intros fock].
    apply keeps_bind; [apply keeps_lift | intros enc].
    apply keeps_bind; [apply keeps_read | intros ns].
    apply keeps_bind.
    { unfold randint. destruct (_ <=? 0); [apply keeps_lift | apply keeps_with_rng]. }
    intros picks. apply keeps_bind; [apply keeps_lift | intros picked].
    apply keeps_bind; [apply keeps_lift | intros vis].
    apply keeps_bind; [apply keeps_read | intros a].
    apply keeps_bind; [apply keeps_read | intros p].
    apply keeps_bind; [apply keeps_lift | intros opt]. apply keeps_fit_loop. }
  specialize (H w). unfold config in H. inversion H. repeat split; assumption.
Qed.

Lemma quiet_ret {A : Type} (a : A) : quiet (ret a).
Proof. intros w. split; reflexivity. Qed.

Lemma quiet_lift {A : Type} (r : result A) : quiet (lift r).
Proof. intros w. split; reflexivity. Qed.

Lemma quiet_read {A : Type} (field : Tomograph -> A) : quiet (read field).
Proof. intros w. split; reflexivity. Qed.

Lemma quiet_with_rng {A : Type} (f : Rng -> A * Rng) : quiet (with_rng f).
Proof. intros w. unfold with_rng. destruct (f (rng w)). split; reflexivity. Qed.

Lemma quiet_bind {A B : Type} (m : M A) (k : A -> M B) :
  quiet m -> (forall a, quiet (k a)) -> quiet (bind m k).
Proof.
  intros Hm Hk w. specialize (Hm w). unfold bind.
  destruct (m w) as [[a|e] w1]; cbn [snd] in *.
  - destruct (Hk a w1) as [H1 H2]. rewrite H1, H2. exact Hm.
  - exact Hm.
Qed.

(** X20.  With [n_epochs <= 0] the loop body never runs: [fit] encodes
    the data and draws the initial chain state, and leaves the model and
    the events as they were, with no print and no callback called. *)
Theorem fit_without_epochs (w : world) (x theta : list scalar) (n_epochs : Z)
    (lr : R) (callbacks : option (list Callback)) :
  n_epochs <= 0 ->
  self (snd (fit x theta n_epochs lr callbacks w)) = self w /\
  out (snd (fit x theta n_epochs lr callbacks w)) = out w.
Proof.
  intros Hn.
  assert (Hr : range n_epochs = []).
  { unfold range. replace (Z.to_nat n_epochs) with 0%nat by lia. reflexivity. }
  assert (H : quiet (fit x theta n_epochs lr callbacks)).
  { unfold fit. rewrite Hr. apply quiet_bind; [apply quiet_read | intros vs].
    apply quiet_bind; [apply quiet_lift | intros fock].
    apply quiet_bind; [apply quiet_lift | intros enc].
    apply quiet_bind; [apply quiet_read | intros ns].
    apply quiet_bind.
    { unfold randint. destruct (_ <=? 0); [apply quiet_lift | apply quiet_with_rng]. }
    intros picks. apply quiet_bind; [apply quiet_lift | intros picked].
    apply quiet_bind; [apply quiet_lift | intros vis].
    apply quiet_bind; [apply quiet_read | intros a].
    apply quiet_bind; [apply quiet_read | intros p].
    apply quiet_bind; [apply quiet_lift | intros opt]. cbn [fit_loop]. apply quiet_ret. }
  exact (H w).
Qed.

End FitMore.

Lemma fit_without_epochs_witness :
  self (snd (@fit reference_numerics uniform_backend [Fin 0] [Fin 0] (-3) (1 / 100)
               (Some [0%nat]) (small_world true))) = self (small_world true) /\
  out (snd (@fit reference_numerics uniform_backend [Fin 0] [Fin 0] (-3) (1 / 100)
              (Some [0%nat]) (small_world true))) = out (small_world true).
Proof.
  apply (@fit_without_epochs reference_numerics uniform_backend). lia.
Defined.

Local Close Scope Z_scope.

(** ** Edges of [fit] *)

Local Open Scope Z_scope.

Section FitEdges.

Context {num : Numerics} {be : Backend}.

(** *** Measurements that do not pair up *)

Lemma loss_value_row_mismatch (eps : R) (data_amplitudes data_phases : matrix)
    (predicted_amplitude predicted_phase : list scalar) (k : nat) :
  ncols data_amplitudes = k -> ncols data_phases = k ->
  length predicted_amplitude = k -> length predicted_phase = k ->
  nrows data_amplitudes <> nrows data_phases ->
  nrows data_amplitudes <> 1%nat -> nrows data_phases <> 1%nat ->
  loss_value eps (data_amplitudes, data_phases) (predicted_amplitude, predicted_phase)
    = Err RuntimeError.
Proof.
  intros H1 H2 H3 H4 H5 H6 H7. unfold loss_value, likelihood.
  destruct (@bcast_mat_defined fmul data_amplitudes (row_mat predicted_amplitude)
              k (nrows data_amplitudes)) as [am [Ham [Cam Ram]]].
  { cbn [row_mat ncols]. rewrite H1, H3. apply bdim_same. }
  { apply bdim_one_r. }
  destruct (@bcast_mat_defined fsub data_phases (row_mat predicted_phase)
              k (nrows data_phases)) as [ph [Hph [Cph Rph]]].
  { cbn [row_mat ncols]. rewrite H2, H4. apply bdim_same. }
  { apply bdim_one_r. }
  rewrite Ham, Hph. cbn [rbind]. unfold bcast_mat at 1.
  cbn [map_mat ncols]. rewrite Cam, Cph, bdim_same. cbn [rbind].
  unfold nrows at 2. cbn [map_mat rows]. rewrite length_map. fold (nrows ph).
  rewrite Ram, Rph, bdim_mismatch by assumption. reflexivity.
Qed.

Lemma loss_raises (data_states : matrix * matrix) (predicted : list scalar * list scalar)
    (w : world) (e : pyerr) :
  loss_value (_eps (self w)) data_states predicted = Err e ->
  loss data_states predicted w = (Err e, w).
Proof. intros H. unfold loss, bind, read, lift. now rewrite H. Qed.

Lemma range_first (n : Z) : 1 <= n -> exists rest, range n = 0 :: rest.
Proof.
  intros H. unfold range. destruct (Z.to_nat n) as [|k] eqn:E; [lia|].
  cbn [seq map]. eexists; reflexivity.
Qed.

Lemma fit_enters_loop (w : world) (x theta : list scalar) (n_epochs : Z) (lr : R)
    (callbacks : option (list Callback)) :
  (vis_size (self w) < 63)%nat ->
  exists amp ph vis g,
    ncols amp = (2 ^ vis_size (self w))%nat /\ ncols ph = (2 ^ vis_size (self w))%nat /\
    nrows amp = length x /\ nrows ph = length theta /\
    Forall (bit_row (vis_size (self w))) vis /\
    fit x theta n_epochs lr callbacks w =
      bind (lift (new_adam lr (amplitude_rbm (self w), phase_rbm (self w))))
        (fun opt => fit_loop (amp, ph) n_epochs callbacks (range n_epochs) vis opt)
        {| self := self w; rng := g; out := out w |}.
Proof.
  intros Hvs.
  set (vs := vis_size (self w)) in *. set (N := (2 ^ vs)%nat).
  assert (HN : 2 ^ Z.of_nat vs = Z.of_nat N) by apply pow2_nat.
  assert (Hpos : 0 < Z.of_nat N).
  { rewrite <- HN. apply Z.pow_pos_nonneg; lia. }
  pose proof (pow2_le_max Hvs) as Hmax. rewrite HN in Hmax.
  set (fock := map Z.of_nat (seq 0 N)).
  assert (Hfock : arange (2 ^ Z.of_nat vs) = Ok fock).
  { rewrite HN, arange_ok by exact Hmax. unfold fock. now rewrite Nat2Z.id. }
  assert (Hlast : last fock 0 = Z.of_nat N - 1) by (apply last_seq; lia).
  destruct (@encode_data_returns _ fock x theta) as [[amp ph] Henc].
  { rewrite Hlast. eapply Forall_impl; [|apply seq_in_range]. cbn beta. intros; lia. }
  { rewrite Hlast. lia. }
  destruct (encode_data_shape _ _ _ Henc) as [Ca [Ra [Cp Rp]]].
  assert (Lf : length fock = N) by (unfold fock; now rewrite length_map, length_seq).
  pose proof (@draws_in_range _ (Z.of_nat N) (n_samples (self w)) (rng w) Hpos) as Hpicks.
  destruct (draws (Z.of_nat N) (n_samples (self w)) (rng w)) as [picks g] eqn:Hd.
  cbn [fst] in Hpicks.
  destruct (@idx2vis_bit_rows vs picks) as [vis [Hvis Hbits]].
  { unfold index_in_range. rewrite HN. exact Hpicks. }
  exists amp, ph, vis, g.
  split; [now rewrite Ca, Lf|]. split; [now rewrite Cp, Lf|].
  split; [exact Ra|]. split; [exact Rp|]. split; [exact Hbits|].
  unfold fit. rewrite bind_read. fold vs. rewrite Hfock, bind_lift_ok.
  rewrite Henc, bind_lift_ok, bind_read, Lf.
  rewrite (@bind_ok _ _ _ _ _ _ _ _ (randint_draws (n_samples (self w)) w Hpos)).
  rewrite Hd. cbn [fst snd].
  unfold fock at 1. rewrite (@gather_seq N picks Hpicks), bind_lift_ok.
  rewrite Hvis, bind_lift_ok, !bind_read. reflexivity.
Qed.

(** X21.  Measurements that do not pair up stop training in its first
    iteration: with at least one epoch, a learning rate that the
    optimiser accepts ([0 <= lr]), [len(x)] and [len(theta)] different
    and neither of them [1], [fit] prints the sampled indices once and
    raises a [RuntimeError] inside [loss]; no callback has been called
    and the parameters are untouched. *)
Theorem fit_refuses_unpaired_measurements (w : world) (x theta : list scalar)
    (n_epochs : Z) (lr : R) (callbacks : option (list Callback)) :
  1 <= n_epochs ->
  (0 <= lr)%R ->
  (vis_size (self w) < 63)%nat ->
  length x <> length theta -> length x <> 1%nat -> length theta <> 1%nat ->
  prob_per_row ->
  (gibbs (self w) = true -> sample_keeps_bits) ->
  exists (sampled_indices : list Z) (g : Rng),
    fit x theta n_epochs lr callbacks w =
      (Err RuntimeError,
       {| self := self w; rng := g; out := out w ++ [Printed sampled_indices] |}).
Proof.
  intros Hn Hlr Hvs Hxt Hx1 Ht1 Hprob Hsample.
  destruct (fit_enters_loop w x theta n_epochs lr callbacks Hvs)
    as [amp [ph [vis [g [Ca [Cp [Ra [Rp [Hbits Hfit]]]]]]]]].
  destruct (range_first Hn) as [rest Hrange].
  rewrite Hfit, (new_adam_ok _ Hlr), bind_lift_ok, Hrange. cbn [fit_loop].
  set (w1 := {| self := self w; rng := g; out := out w |}).
  destruct (@forward_defined _ (vis_size (self w)) vis w1 eq_refl Hvs Hsample Hbits)
    as [vis' [g' [Hf Hb']]].
  rewrite (@bind_ok _ _ _ _ _ _ _ _ Hf). cbn beta iota.
  rewrite (@bind_ok _ _ _ _ _ _ _ _ (emit_run (Printed (vis2idx vis')) _)).
  cbn [self rng out w1].
  assert (Hidx : Forall (fun i => 0 <= i < Z.of_nat (2 ^ vis_size (self w))) (vis2idx vis')).
  { rewrite <- pow2_nat. now apply vis2idx_in_range. }
  destruct (@take_cols_defined amp (vis2idx vis')) as [da [Hda [Cda Rda]]];
    [now rewrite Ca|].
  destruct (@take_cols_defined ph (vis2idx vis')) as [dp [Hdp [Cdp Rdp]]];
    [now rewrite Cp|].
  cbn [fst snd]. rewrite Hda, bind_lift_ok, Hdp, bind_lift_ok.
  destruct (predicted_state_lengths (amplitude_rbm (self w)) (phase_rbm (self w))
              (_eps (self w)) vis' Hprob) as [La Lp].
  assert (Hk : length (vis2idx vis') = length vis') by (unfold vis2idx; apply length_map).
  erewrite bind_err.
  - exists (vis2idx vis'), g'. reflexivity.
  - apply loss_raises. cbn [self].
    rewrite (surjective_pairing (predicted_state _ _ _ vis')).
    apply loss_value_row_mismatch with (k := length vis'); congruence.
Qed.

(** *** The indices printed in enumeration mode *)

Lemma enumerate_indices (vs : nat) (v : list (list Z)) :
  enumerate vs = Ok v -> vis2idx v = map Z.of_nat (seq 0 (2 ^ vs)).
Proof.
  unfold enumerate. intros H. rbind_inv H idx Ha.
  apply arange_spec in Ha. destruct Ha as [-> Hmax].
  rewrite pow2_nat, Nat2Z.id in H. rewrite pow2_nat in Hmax.
  destruct (@vis2idx_idx2vis vs (map Z.of_nat (seq 0 (2 ^ vs))))
    as [v' [Hv [Hidx _]]].
  - unfold index_in_range. rewrite pow2_nat. apply seq_in_range.
  - eapply Forall_impl; [|apply seq_in_range]. cbn beta. intros i Hi. lia.
  - rewrite H in Hv. inversion Hv; subst. exact Hidx.
Qed.

Lemma bind_run {A B : Type} (m : M A) (k : A -> M B) (w w1 : world) (r : result A) :
  m w = (r, w1) ->
  bind m k w = match r with Ok a => k a w1 | Err e => (Err e, w1) end.
Proof. intros H. unfold bind. rewrite H. destruct r; reflexivity. Qed.

Lemma fit_loop_prints_basis (encoded_data : matrix * matrix) (n_epochs : Z)
    (callbacks : option (list Callback)) (vs : nat) (epochs : list Z) :
  forall (vis : list (list Z)) (opt : OptState) (w : world),
    gibbs (self w) = false -> vis_size (self w) = vs ->
    exists evs,
      out (snd (fit_loop encoded_data n_epochs callbacks epochs vis opt w)) = out w ++ evs /\
      prints_full_basis vs evs.
Proof.
  induction epochs as [|e epochs IH]; intros vis opt w Hg Hvs.
  - exists []. cbn [fit_loop ret snd]. rewrite app_nil_r. split; [reflexivity | constructor].
  - cbn [fit_loop].
    rewrite (@bind_run _ _ _ _ _ _ _ (forward_enumeration vis w Hg)). rewrite Hvs.
    destruct (enumerate vs) as [v|err] eqn:He; cbn [rbind].
    2:{ exists []. cbn [snd]. rewrite app_nil_r. split; [reflexivity | constructor]. }
    pose proof (enumerate_indices _ He) as Hidx.
    rewrite (@bind_ok _ _ _ _ _ _ _ _ (emit_run (Printed (vis2idx v)) _)).
    rewrite Hidx.
    set (idx := map Z.of_nat (seq 0 (2 ^ vs))).
    set (w1 := {| self := self w; rng := rng w; out := out w ++ [Printed idx] |}).
    assert (Hone : prints_full_basis vs [Printed idx]) by (repeat constructor).
    destruct (take_cols (fst encoded_data) idx) as [da|err];
      [rewrite bind_lift_ok | rewrite bind_lift_err; exists [Printed idx]; now split].
    destruct (take_cols (snd encoded_data) idx) as [dp|err];
      [rewrite bind_lift_ok | rewrite bind_lift_err; exists [Printed idx]; now split].
    destruct (loss_value (_eps (self w1)) (da, dp)
                (predicted_state (amplitude_rbm (self w)) (phase_rbm (self w))
                   (_eps (self w)) v)) as [l|err] eqn:Hl.
    2:{ rewrite (@bind_err _ _ _ _ _ _ _ _ (loss_raises _ _ w1 Hl)).
        exists [Printed idx]. now split. }
    rewrite (@bind_ok _ _ _ _ _ _ _ _ (loss_run _ _ w1 Hl)).
    rewrite bind_read.
    rewrite (@bind_ok _ _ _ _ _ _ _ _ (optimise_run opt _ _)).
    set (w2 := {| self := stepped _ _; rng := rng w1; out := out w1 |}).
    set (log := {| log_epoch := e; log_n_epochs := n_epochs; log_loss := l |}).
    rewrite (@bind_ok _ _ _ _ _ _ _ _ (callbacks_run callbacks log w2)).
    set (cbs := match callbacks with Some cbs => cbs | None => [] end).
    destruct (IH v (fst (adam_step opt
                           (fun ab : RBM * RBM =>
                              loss_value (_eps (self w1)) (da, dp)
                                (predicted_state (fst ab) (snd ab) (_eps (self w1)) v))
                           (amplitude_rbm (self w1), phase_rbm (self w1))))
                {| self := self w2; rng := rng w2;
                   out := out w2 ++ map (fun callback => Called callback log) cbs |})
      as [evs [Hout Hp]]; [exact Hg | exact Hvs |].
    exists (Printed idx :: map (fun callback => Called callback log) cbs ++ evs).
    split.
    + rewrite Hout. cbn [out w2 w1]. rewrite <- !app_assoc. reflexivity.
    + constructor; [reflexivity|]. apply Forall_app. split; [|exact Hp].
      apply Forall_map, Forall_forall. intros cb _. exact I.
Qed.

(** X22.  On a model with [gibbs=False], whatever [fit] prints, in every
    epoch and however the call ends, is the tensor of all basis indices
    [0, 1, ..., 2 ^ vis_size - 1] in order: every iteration compares the
    prediction with all columns of the encoded data. *)
Theorem fit_enumeration_prints_all_indices (w : world) (x theta : list scalar)
    (n_epochs : Z) (lr : R) (callbacks : option (list Callback)) :
  gibbs (self w) = false ->
  exists evs,
    out (snd (fit x theta n_epochs lr callbacks w)) = out w ++ evs /\
    prints_full_basis (vis_size (self w)) evs.
Proof.
  intros Hg.
  assert (Hnil : forall w' : world, out w' = out w ->
            exists evs, out w' = out w ++ evs /\ prints_full_basis (vis_size (self w)) evs).
  { intros w' H. exists []. rewrite app_nil_r. split; [exact H | constructor]. }
  unfold fit. rewrite bind_read.
  destruct (arange (2 ^ Z.of_nat (vis_size (self w)))) as [fock|e];
    [rewrite bind_lift_ok | rewrite bind_lift_err; now apply Hnil].
  destruct (encode_data fock x theta) as [enc|e];
    [rewrite bind_lift_ok | rewrite bind_lift_err; now apply Hnil].
  rewrite bind_read. unfold bind at 1, randint.
  destruct (Z.of_nat (length fock) <=? 0); [unfold lift; now apply Hnil|].
  unfold with_rng. destruct (draws _ (n_samples (self w)) (rng w)) as [picks g].
  set (w1 := {| self := self w; rng := g; out := out w |}).
  destruct (gather 0 fock picks) as [picked|e];
    [rewrite bind_lift_ok | rewrite bind_lift_err; now apply Hnil].
  destruct (idx2vis picked (vis_size (self w))) as [vis|e];
    [rewrite bind_lift_ok | rewrite bind_lift_err; now apply Hnil].
  rewrite !bind_read.
  destruct (new_adam lr _) as [opt|e];
    [rewrite bind_lift_ok | rewrite bind_lift_err; now apply Hnil].
  apply (@fit_loop_prints_basis enc n_epochs callbacks (vis_size (self w))
           (range n_epochs) vis opt w1 Hg eq_refl).
Qed.

(** *** A learning rate that the optimiser refuses *)

(** X25.  A negative learning rate stops [fit] before its first
    iteration: the data are encoded and the initial chain state is
    drawn, then the constructor of the optimiser raises a [ValueError];
    nothing has been printed, no callback has been called and the
    parameters are untouched, whatever [n_epochs] is. *)
Theorem fit_refuses_negative_learning_rate (w : world) (x theta : list scalar)
    (n_epochs : Z) (lr : R) (callbacks : option (list Callback)) :
  (lr < 0)%R ->
  (vis_size (self w) < 63)%nat ->
  exists g : Rng,
    fit x theta n_epochs lr callbacks w =
      (Err ValueError, {| self := self w; rng := g; out := out w |}).
Proof.
  intros Hlr Hvs.
  destruct (fit_enters_loop w x theta n_epochs lr callbacks Hvs)
    as [amp [ph [vis [g [_ [_ [_ [_ [_ Hfit]]]]]]]]].
  exists g. rewrite Hfit, (new_adam_negative _ Hlr), bind_lift_err. reflexivity.
Qed.

End FitEdges.

Lemma fit_refuses_unpaired_measurements_witness :
  exists (sampled_indices : list Z) (g : Z),
    @fit reference_numerics uniform_backend [Fin 0; Fin 0] [Fin 0; Fin 0; Fin 0] 5
      (1 / 100) (Some [0%nat]) (small_world true) =
      (Err RuntimeError,
       {| self := small_model true; rng := g; out := [Printed sampled_indices] |}).
Proof.
  apply (@fit_refuses_unpaired_measurements reference_numerics uniform_backend
           (small_world true) [Fin 0; Fin 0] [Fin 0; Fin 0; Fin 0] 5 (1 / 100)%R
           (Some [0%nat])).
  - lia.
  - lra.
  - simpl. lia.
  - simpl. lia.
  - simpl. lia.
  - simpl. lia.
  - exact uniform_prob_per_row.
  - intros _. exact uniform_sample_keeps_bits.
Defined.

Lemma fit_enumeration_prints_all_indices_witness :
  exists evs,
    out (snd (@fit reference_numerics uniform_backend [Fin 0] [Fin 0] 2 (1 / 100)
                (Some [0%nat]) (small_world false))) = [] ++ evs /\
    prints_full_basis 2 evs.
Proof.
  apply (@fit_enumeration_prints_all_indices reference_numerics uniform_backend
           (small_world false)).
  reflexivity.
Defined.

Lemma fit_refuses_negative_learning_rate_witness :
  exists g : Z,
    @fit reference_numerics uniform_backend [Fin 0] [Fin 0] 5 (- (1 / 100))
      (Some [0%nat]) (small_world true) =
      (Err ValueError, {| self := small_model true; rng := g; out := [] |}).
Proof.
  apply (@fit_refuses_negative_learning_rate reference_numerics uniform_backend
           (small_world true) [Fin 0] [Fin 0] 5 (- (1 / 100))%R (Some [0%nat])).
  - lra.
  - simpl. lia.
Defined.

Local Close Scope Z_scope.

(** ** One basis state, and the shape of [predict] *)

Local Open Scope R_scope.

(** *** One basis state *)

Lemma single_column_product (f : scalar -> scalar -> scalar) (g1 g2 : R * R -> scalar)
    (l : list (R * R)) :
  bcast_mat f (Mat 1 (map (fun p => [g1 p]) l)) (Mat 1 (map (fun p => [g2 p]) l)) =
  Ok (Mat 1 (map (fun p => [f (g1 p) (g2 p)]) l)).
Proof.
  unfold bcast_mat, nrows. cbn [ncols rows]. rewrite !length_map, !bdim_same.
  cbn [rbind]. do 2 f_equal.
  rewrite !expand_same by apply length_map. rewrite zip_with_map_same.
  apply map_ext. intros p. reflexivity.
Qed.

Lemma single_column_row (f : scalar -> scalar -> scalar) (g : R * R -> scalar)
    (b : scalar) (l : list (R * R)) :
  bcast_mat f (Mat 1 (map (fun p => [g p]) l)) (row_mat [b]) =
  Ok (Mat 1 (map (fun p => [f (g p) b]) l)).
Proof.
  rewrite bcast_mat_row.
  - cbn [ncols rows]. do 2 f_equal. rewrite map_map. reflexivity.
  - unfold rectangular. cbn [ncols rows]. apply Forall_map, Forall_forall.
    intros p _. reflexivity.
  - reflexivity.
Qed.

(** X23.  Over a single basis state the phases cancel: for data rows
    with amplitude [a_r] and any phase, and a prediction with amplitude
    [b] and any phase, the likelihood of row [r] is [(a_r * b) ** 2]. *)
Theorem likelihood_single_basis_state (data : list (R * R)) (b psi : R) :
  likelihood (Mat 1 (map (fun p => [Fin (fst p)]) data),
              Mat 1 (map (fun p => [Fin (snd p)]) data))
             ([Fin b], [Fin psi]) =
  Ok (map (fun p => Fin (Rsqr (fst p * b))) data).
Proof.
  unfold likelihood.
  rewrite (single_column_row fmul (fun p => Fin (fst p)) (Fin b)). cbn [rbind].
  rewrite (single_column_row fsub (fun p => Fin (snd p)) (Fin psi)). cbn [rbind].
  unfold map_mat. cbn [ncols rows]. rewrite !map_map. cbn [map].
  rewrite (single_column_product fmul
             (fun p => fmul (Fin (fst p)) (Fin b))
             (fun p => fcos (fsub (Fin (snd p)) (Fin psi)))).
  cbn [rbind].
  rewrite (single_column_product fmul
             (fun p => fmul (Fin (fst p)) (Fin b))
             (fun p => fsin (fsub (Fin (snd p)) (Fin psi)))).
  cbn [rbind]. unfold sum_dim1, bcast_vec. cbn [rows].
  rewrite !map_map, !length_map, bdim_same. cbn [rbind].
  rewrite !expand_same by apply length_map. rewrite zip_with_map_same.
  f_equal. apply map_ext. intros [a phi].
  cbn [fst snd fsum fold_left fmul fsub fcos fsin fadd fsqr lift1 lift2]. f_equal.
  pose proof (sin2_cos2 (phi - psi)) as H. unfold Rsqr in *. nra.
Qed.

Section PredictShape.

Context {be : Backend}.

(** X24.  For [vis_size <= 62] and an RBM class whose [prob] gives one
    value per row, [predict()] returns, and both the amplitude and the
    phase vector have one entry per basis state, [2 ^ vis_size] in
    all. *)
Theorem predict_returns_full_readout (w : world) :
  (vis_size (self w) < 63)%nat -> prob_per_row ->
  exists amplitude phase,
    predict w = (Ok (amplitude, phase), w) /\
    length amplitude = (2 ^ vis_size (self w))%nat /\
    length phase = (2 ^ vis_size (self w))%nat.
Proof.
  intros Hvs Hprob. unfold predict, bind, read, lift, ret.
  destruct (enumerate_bit_rows Hvs) as [vis [He _]]. rewrite He.
  assert (Hlen : length vis = (2 ^ vis_size (self w))%nat).
  { pose proof (enumerate_indices _ He) as Hi.
    apply (f_equal (@length Z)) in Hi. unfold vis2idx in Hi.
    now rewrite !length_map, length_seq in Hi. }
  destruct (predicted_state_lengths (amplitude_rbm (self w)) (phase_rbm (self w))
              (_eps (self w)) vis Hprob) as [La Lp].
  destruct (predicted_state _ _ _ vis) as [amplitude phase]. cbn [fst snd] in *.
  exists amplitude, phase. split; [reflexivity|]. split; congruence.
Qed.

End PredictShape.

Lemma predict_returns_full_readout_witness :
  exists amplitude phase,
    predict (small_world false) = (Ok (amplitude, phase), small_world false) /\
    length amplitude = (2 ^ 2)%nat /\ length phase = (2 ^ 2)%nat.
Proof.
  apply (@predict_returns_full_readout uniform_backend (small_world false)).
  - simpl. lia.
  - exact uniform_prob_per_row.
Defined.

Local Close Scope R_scope.
